(** * Solar optimizer: the simulated-annealing solver

    A shallow embedding of
    [custom_components/solar_optimizer/simulated_annealing_algo.py]
    (class [SimulatedAnnealingAlgorithm]) and the properties its
    specification states about it.

    Numbers.  Python's [float] (and the [int]s mixed with them) are read as
    real numbers: [+], [-], [*] are the field operations, [/] is the field
    division guarded by Python's [ZeroDivisionError], comparisons are the
    order of the reals and [math.exp] is the real exponential.  Rounding,
    infinities and NaN are outside this reading; what is stated of the
    termination of a call rests on the tests the code makes (every
    iteration divides by a temperature that is positive because a test let
    it through), not on the cooled temperature staying away from zero,
    which rounding does not keep.

    Randomness.  The module-level generator of [random] is an explicit
    state: an infinite supply of raw draws and a cursor into it.

    The development has four parts.
    - Part I gives the value semantics: a solution is the list of its
      dictionaries' contents.
    - Part II gives the store semantics: lists, dictionaries and device
      objects live in a store and are named by addresses, so that
      [copy.deepcopy], aliasing and in-place assignment are what they are
      in Python.
    - Part III proves the properties: those of the scores, of the loop and
      of the entry point on the value semantics; that the store semantics
      computes what the value semantics computes; and what a call leaves
      untouched in the store.
    - Part IV proves further properties of the code: what a call depends
      on, the edges of the loop, the neighbourhood, and what a call
      allocates. *)

From Stdlib Require Import Reals Lra Lia ZArith String List.
From stdpp Require Import base list.
Import ListNotations.

#[local] Open Scope R_scope.

(** ** Exceptions and results *)

(** A Python exception, identified by the name of its class. *)
Inductive exception : Type :=
| Exception (cls : string).

Definition ZeroDivisionError : exception := Exception "ZeroDivisionError"%string.
Definition IndexError : exception := Exception "IndexError"%string.
Definition AttributeError : exception := Exception "AttributeError"%string.

(** The two error names the specification asks for. *)
Definition InvalidTariff : exception := Exception "InvalidTariff"%string.
Definition NoUsableDevice : exception := Exception "NoUsableDevice"%string.

(** The outcome of a call: a value, or a raised exception. *)
Inductive result (A : Type) : Type :=
| Ok (a : A)
| Raise (e : exception).
Arguments Ok {A} a.
Arguments Raise {A} e.

#[global] Instance result_ret : MRet result := fun A a => Ok a.
#[global] Instance result_bind : MBind result := fun A B k m =>
  match m with
  | Ok a => k a
  | Raise e => Raise e
  end.

Definition returns {A : Type} (m : result A) : Prop := exists a, m = Ok a.

(** Reading an instance attribute that the class only annotates: it exists
    once it has been assigned. *)
Definition getattr {A : Type} (field : option A) : result A :=
  match field with
  | Some a => Ok a
  | None => Raise AttributeError
  end.

(** [a / b] on Python numbers. *)
Definition truediv (a b : R) : result R :=
  if Req_dec_T b 0 then Raise ZeroDivisionError else Ok (a / b).

(** ** The random generator *)

Record Random : Type := mkRandom {
  entiers : nat -> nat;  (* raw draws used by [random.choice] *)
  reels : nat -> R;      (* raw draws used by [random.random] *)
  curseur : nat
}.

Definition avancer (g : Random) : Random :=
  {| entiers := entiers g; reels := reels g; curseur := S (curseur g) |}.

(** [random.choice(seq)]. *)
Definition random_choice {A : Type} (seq : list A) (g : Random)
  : result (A * Random) :=
  match seq !! (entiers g (curseur g) mod length seq)%nat with
  | Some x => Ok (x, avancer g)
  | None => Raise IndexError
  end.

(** [random.random()]. *)
Definition random_random (g : Random) : R * Random :=
  (reels g (curseur g), avancer g).

(** ** Data *)

(** Modelled from the spec: the class [ManagedDevice] of
    [managed_device.py], which is not among the sources.  Section 6 of the
    specification lists the four attributes the solver reads: [name],
    [power_max], [is_active] and [is_usable] (the prefix [dev_] keeps them
    apart from the dictionary keys of the same name). *)
Record ManagedDevice : Type := mkDevice {
  dev_name : string;
  dev_power_max : R;
  is_active : bool;
  dev_is_usable : bool
}.

(** The content of one dictionary of a solution
    ([{"power_max": .., "name": .., "state": .., "is_usable": ..}]). *)
Record Equipement : Type := mkEqt {
  power_max : R;
  name : string;
  state : bool;
  is_usable : bool
}.

(** The instance attributes of [SimulatedAnnealingAlgorithm].  [Sol] is the
    type of what [_equipements] holds: a list of contents in Part I, the
    address of a list in Part II.  Attributes the class annotates without a
    default are optional. *)
Record SimulatedAnnealingAlgorithm (Sol : Type) : Type := mkAlgo {
  _temperature_initiale : R;
  _temperature_minimale : R;
  _facteur_refroidissement : R;
  _nombre_iterations : Z;
  _equipements : option Sol;
  _puissance_totale_eqt_initiale : option R;
  _cout_achat : R;
  _cout_revente : R;
  _taxe_revente : R;
  _consommation_net : option R;
  _production_solaire : option R
}.
Arguments mkAlgo {Sol}.
Arguments _temperature_initiale {Sol}.
Arguments _temperature_minimale {Sol}.
Arguments _facteur_refroidissement {Sol}.
Arguments _nombre_iterations {Sol}.
Arguments _equipements {Sol}.
Arguments _puissance_totale_eqt_initiale {Sol}.
Arguments _cout_achat {Sol}.
Arguments _cout_revente {Sol}.
Arguments _taxe_revente {Sol}.
Arguments _consommation_net {Sol}.
Arguments _production_solaire {Sol}.

(** [__init__]. *)
Definition init {Sol : Type} (initial_temp min_temp cooling_factor : R)
    (max_iteration_number : Z) : SimulatedAnnealingAlgorithm Sol :=
  {| _temperature_initiale := initial_temp;
     _temperature_minimale := min_temp;
     _facteur_refroidissement := cooling_factor;
     _nombre_iterations := max_iteration_number;
     _equipements := None;
     _puissance_totale_eqt_initiale := None;
     _cout_achat := 15;
     _cout_revente := 10;
     _taxe_revente := 13 / 100;
     _consommation_net := None;
     _production_solaire := None |}.

(** The local variables of [recuit_simule] that live across the loop,
    together with the state of the random generator.  The three variables
    bound inside the loop body are unbound before the first iteration. *)
Record Frame (Sol : Type) : Type := mkFrame {
  solution_actuelle : Sol;
  meilleure_solution : Sol;
  meilleure_objectif : R;
  temperature : R;
  objectif_actuel : option R;
  voisin : option Sol;
  objectif_voisin : option R;
  generator : Random
}.
Arguments mkFrame {Sol}.
Arguments solution_actuelle {Sol}.
Arguments meilleure_solution {Sol}.
Arguments meilleure_objectif {Sol}.
Arguments temperature {Sol}.
Arguments objectif_actuel {Sol}.
Arguments voisin {Sol}.
Arguments objectif_voisin {Sol}.
Arguments generator {Sol}.

(** The assignments of lines 95-99 of [recuit_simule]. *)
Definition set_context {Sol : Type} (self : SimulatedAnnealingAlgorithm Sol)
    (buy_cost sell_cost sell_tax_percent power_consumption
     solar_power_production : R) : SimulatedAnnealingAlgorithm Sol :=
  {| _temperature_initiale := _temperature_initiale self;
     _temperature_minimale := _temperature_minimale self;
     _facteur_refroidissement := _facteur_refroidissement self;
     _nombre_iterations := _nombre_iterations self;
     _equipements := _equipements self;
     _puissance_totale_eqt_initiale := _puissance_totale_eqt_initiale self;
     _cout_achat := buy_cost;
     _cout_revente := sell_cost;
     _taxe_revente := sell_tax_percent;
     _consommation_net := Some power_consumption;
     _production_solaire := Some solar_power_production |}.

(** [self._equipements = v]. *)
Definition set_equipements {Sol : Type} (self : SimulatedAnnealingAlgorithm Sol)
    (v : Sol) : SimulatedAnnealingAlgorithm Sol :=
  {| _temperature_initiale := _temperature_initiale self;
     _temperature_minimale := _temperature_minimale self;
     _facteur_refroidissement := _facteur_refroidissement self;
     _nombre_iterations := _nombre_iterations self;
     _equipements := Some v;
     _puissance_totale_eqt_initiale := _puissance_totale_eqt_initiale self;
     _cout_achat := _cout_achat self;
     _cout_revente := _cout_revente self;
     _taxe_revente := _taxe_revente self;
     _consommation_net := _consommation_net self;
     _production_solaire := _production_solaire self |}.

(** [self._puissance_totale_eqt_initiale = p]. *)
Definition set_puissance_initiale {Sol : Type}
    (self : SimulatedAnnealingAlgorithm Sol) (p : R)
  : SimulatedAnnealingAlgorithm Sol :=
  {| _temperature_initiale := _temperature_initiale self;
     _temperature_minimale := _temperature_minimale self;
     _facteur_refroidissement := _facteur_refroidissement self;
     _nombre_iterations := _nombre_iterations self;
     _equipements := _equipements self;
     _puissance_totale_eqt_initiale := Some p;
     _cout_achat := _cout_achat self;
     _cout_revente := _cout_revente self;
     _taxe_revente := _taxe_revente self;
     _consommation_net := _consommation_net self;
     _production_solaire := _production_solaire self |}.

(** The dictionary built for one device (lines 104-109). *)
Definition equipement_of (device : ManagedDevice) : Equipement :=
  {| power_max := dev_power_max device;
     name := dev_name device;
     state := is_active device;
     is_usable := dev_is_usable device |}.

(** Lines 181-207 of [calculer_objectif]: the score of a solution whose
    active dictionaries total [puissance_totale_eqt]. *)
Definition objectif {Sol : Type} (self : SimulatedAnnealingAlgorithm Sol)
    (puissance_totale_eqt : R) : result R :=
  initiale ← getattr (_puissance_totale_eqt_initiale self);
  let diff_puissance_totale_eqt := puissance_totale_eqt - initiale in
  consommation_net ← getattr (_consommation_net self);
  let new_consommation_net := consommation_net + diff_puissance_totale_eqt in
  let new_rejets :=
    if Rge_dec new_consommation_net 0 then 0 else - new_consommation_net in
  let new_import :=
    if Rlt_dec new_consommation_net 0 then 0 else new_consommation_net in
  production_solaire ← getattr (_production_solaire self);
  let new_consommation_solaire :=
    Rmin production_solaire (production_solaire - new_rejets) in
  let new_consommation_totale :=
    (new_consommation_net + new_rejets) + new_consommation_solaire in
  let cout_revente_impose :=
    _cout_revente self * (1 - _taxe_revente self / 100) in
  coef_import ←
    truediv (_cout_achat self) (_cout_achat self + cout_revente_impose);
  coef_rejets ←
    truediv cout_revente_impose (_cout_achat self + cout_revente_impose);
  Ok (coef_import * new_import + coef_rejets * new_rejets).

(** [eqt["state"] = not eqt["state"]]. *)
Definition toggle (e : Equipement) : Equipement :=
  {| power_max := power_max e; name := name e;
     state := negb (state e); is_usable := is_usable e |}.

(** [sum] over the dictionaries whose state is set: it starts from 0 and
    adds from the left. *)
Definition total_power (eqts : list Equipement) : R :=
  fold_left Rplus (power_max <$> filter (fun e => state e = true) eqts) 0.

(** * Part I: value semantics *)

Module Values.

(** A solution: the contents of its dictionaries, in order. *)
Abbreviation solution := (list Equipement) (only parsing).

(** The tuple [recuit_simule] returns. *)
Definition answer : Type := (solution * R * R)%type.

(** [[], -1, -1]. *)
Definition sentinel : answer := ([], -1, -1).

Definition algo : Type := SimulatedAnnealingAlgorithm solution.

(** [consommation_equipements]. *)
Definition consommation_equipements (sol : solution) : R := total_power sol.

(** [calculer_objectif]. *)
Definition calculer_objectif (self : algo) (sol : solution) : result R :=
  let puissance_totale_eqt := consommation_equipements sol in
  objectif self puissance_totale_eqt.

(** [generer_solution_initiale]: records the initial total power in [self]
    and returns a copy of its argument. *)
Definition generer_solution_initiale (self : algo) (sol : solution)
  : solution * algo :=
  (sol, set_puissance_initiale self (consommation_equipements sol)).

(** The positions of a solution whose dictionary has [is_usable] set. *)
Definition usable (sol : solution) : list nat :=
  fst <$> filter (fun ie => is_usable (snd ie) = true) (imap pair sol).

(** [permuter_equipement]: in a copy of the solution, one dictionary
    chosen among the usable ones has its state negated. *)
Definition permuter_equipement (sol : solution) (g : Random)
  : result (solution * Random) :=
  let voisin := sol in
  '(i, g') ← random_choice (usable voisin) g;
  Ok (alter toggle i voisin, g').

Definition frame : Type := Frame solution.

(** The body of the loop of [recuit_simule] (lines 121-161). *)
Definition iteration (self : algo) (f : frame) : result frame :=
  objectif_actuel ← calculer_objectif self (solution_actuelle f);
  '(voisin, g1) ← permuter_equipement (solution_actuelle f) (generator f);
  objectif_voisin ← calculer_objectif self voisin;
  '(actuelle, meilleure, objectif, g2) ←
    (if Rlt_dec objectif_voisin objectif_actuel then
       objectif_meilleure ← calculer_objectif self (meilleure_solution f);
       if Rlt_dec objectif_voisin objectif_meilleure
       then Ok (voisin, voisin, objectif_voisin, g1)
       else Ok (voisin, meilleure_solution f, meilleure_objectif f, g1)
     else
       quotient ← truediv (objectif_actuel - objectif_voisin) (temperature f);
       let probabilite := exp quotient in
       let '(seuil, g2) := random_random g1 in
       if Rlt_dec seuil probabilite
       then Ok (voisin, meilleure_solution f, meilleure_objectif f, g2)
       else Ok (solution_actuelle f, meilleure_solution f,
                meilleure_objectif f, g2));
  Ok {| solution_actuelle := actuelle;
        meilleure_solution := meilleure;
        meilleure_objectif := objectif;
        temperature := temperature f * _facteur_refroidissement self;
        objectif_actuel := Some objectif_actuel;
        voisin := Some voisin;
        objectif_voisin := Some objectif_voisin;
        generator := g2 |}.

(** [for _ in range(n): body; if temperature < minimum: break]. *)
Fixpoint boucle (self : algo) (n : nat) (f : frame) : result frame :=
  match n with
  | O => Ok f
  | S n' =>
      f' ← iteration self f;
      if Rlt_dec (temperature f') (_temperature_minimale self)
      then Ok f'
      else boucle self n' f'
  end.

(** Lines 95-118: the context is stored in [self], the working list is
    built, the initial solution is generated and scored. *)
Definition preparer (self : algo) (g : Random) (devices : list ManagedDevice)
    (power_consumption solar_power_production sell_cost buy_cost
     sell_tax_percent : R) : result (algo * frame) :=
  let self := set_context self buy_cost sell_cost sell_tax_percent
                power_consumption solar_power_production in
  let equipements := equipement_of <$> devices in
  let self := set_equipements self equipements in
  let '(solution_actuelle, self) := generer_solution_initiale self equipements in
  let meilleure_solution := solution_actuelle in
  meilleure_objectif ← calculer_objectif self solution_actuelle;
  Ok (self,
      {| solution_actuelle := solution_actuelle;
         meilleure_solution := meilleure_solution;
         meilleure_objectif := meilleure_objectif;
         temperature := _temperature_initiale self;
         objectif_actuel := None;
         voisin := None;
         objectif_voisin := None;
         generator := g |}).

(** [recuit_simule]: the answer, and the solver and the generator as the
    call leaves them. *)
Definition recuit_simule (self : algo) (g : Random)
    (devices : list ManagedDevice)
    (power_consumption solar_power_production sell_cost buy_cost
     sell_tax_percent : option R) : result (answer * algo * Random) :=
  match devices, power_consumption, solar_power_production,
        sell_cost, buy_cost, sell_tax_percent with
  | _ :: _, Some power_consumption, Some solar_power_production,
    Some sell_cost, Some buy_cost, Some sell_tax_percent =>
      '(self, f) ← preparer self g devices power_consumption
                     solar_power_production sell_cost buy_cost
                     sell_tax_percent;
      f ← boucle self (Z.to_nat (_nombre_iterations self)) f;
      Ok ((meilleure_solution f, meilleure_objectif f,
           consommation_equipements (meilleure_solution f)),
          self, generator f)
  | _, _, _, _, _, _ => Ok (sentinel, self, g)
  end.

End Values.

(** * Part II: store semantics *)

Module Store.

(** An address: the position of an object in the store. *)
Abbreviation addr := nat (only parsing).

(** The objects the solver's code names: the caller's device objects, the
    dictionaries of a solution, and lists of addresses.  What the library
    functions it calls create and drop on their way (the memo table of
    [copy.deepcopy], iterators, tuples of arguments) is not in the store. *)
Inductive object : Type :=
| Device (d : ManagedDevice)
| Dict (e : Equipement)
| PyList (items : list addr).

(** The store lists the objects by address; a new object goes at the end. *)
Abbreviation store := (list object) (only parsing).

(** How a call that works on the store ends: it returns a value or raises
    an exception, and in both cases leaves a store. *)
Inductive outcome (A : Type) : Type :=
| Returned (a : A) (h : store)
| Raised (e : exception) (h : store).
Arguments Returned {A} a h.
Arguments Raised {A} e h.

(** The store a call leaves. *)
Definition final {A : Type} (m : outcome A) : store :=
  match m with
  | Returned _ h => h
  | Raised _ h => h
  end.

(** A computation that only reads the store [h]. *)
Definition lift {A : Type} (h : store) (r : result A) : outcome A :=
  match r with
  | Ok a => Returned a h
  | Raise e => Raised e h
  end.

Definition obind {A B : Type} (m : outcome A) (k : A -> store -> outcome B)
  : outcome B :=
  match m with
  | Returned a h => k a h
  | Raised e h => Raised e h
  end.

Notation "'run' x 'with' h ':=' m 'in' k" := (obind m (fun x h => k))
  (at level 10, x name, h name, m at level 100, k at level 200,
   only parsing).
Notation "'run' ' p 'with' h ':=' m 'in' k" :=
  (obind m (fun x h => let 'p := x in k))
  (at level 10, p pattern, h name, m at level 100, k at level 200,
   only parsing).

Definition alloc (o : object) (h : store) : outcome addr :=
  Returned (length h) (h ++ [o]).

Definition TypeError : exception := Exception "TypeError"%string.

(** The typed reads.  An address outside the store, or one that holds an
    object of another class, does not arise from a well-formed call; such a
    read is reported as [TypeError]. *)
Definition read_list (h : store) (a : addr) : result (list addr) :=
  match h !! a with
  | Some (PyList items) => Ok items
  | _ => Raise TypeError
  end.

Definition read_dict (h : store) (a : addr) : result Equipement :=
  match h !! a with
  | Some (Dict e) => Ok e
  | _ => Raise TypeError
  end.

Definition read_device (h : store) (a : addr) : result ManagedDevice :=
  match h !! a with
  | Some (Device d) => Ok d
  | _ => Raise TypeError
  end.

Fixpoint read_dicts (h : store) (items : list addr)
  : result (list Equipement) :=
  match items with
  | [] => Ok []
  | a :: rest =>
      e ← read_dict h a;
      es ← read_dicts h rest;
      Ok (e :: es)
  end.

(** The contents of the solution at an address. *)
Definition contents (h : store) (sol : addr) : result (list Equipement) :=
  items ← read_list h sol;
  read_dicts h items.

(** The tuple [recuit_simule] returns: the address of the best solution and
    two numbers. *)
Definition answer : Type := (addr * R * R)%type.

Definition algo : Type := SimulatedAnnealingAlgorithm addr.

Definition frame : Type := Frame addr.

(** [consommation_equipements]: it only reads. *)
Definition consommation_equipements (h : store) (sol : addr) : result R :=
  eqts ← contents h sol;
  Ok (total_power eqts).

(** [calculer_objectif]: it only reads. *)
Definition calculer_objectif (self : algo) (h : store) (sol : addr)
  : result R :=
  puissance_totale_eqt ← consommation_equipements h sol;
  objectif self puissance_totale_eqt.

(** The memo table of [copy.deepcopy]: copied address, address of its
    copy. *)
Definition memo : Type := list (addr * addr).

Fixpoint memo_get (m : memo) (a : addr) : option addr :=
  match m with
  | [] => None
  | (k, v) :: m' => if Nat.eqb k a then Some v else memo_get m' a
  end.

(** [copy.deepcopy] on the items of a list of dictionaries whose values are
    numbers, strings and booleans: an item met before is answered from the
    memo table, another one is copied into a new dictionary. *)
Fixpoint deepcopy_items (m : memo) (items : list addr) (h : store)
  : outcome (list addr * memo) :=
  match items with
  | [] => Returned ([], m) h
  | a :: rest =>
      match memo_get m a with
      | Some a' =>
          run '(rest', m') with h := deepcopy_items m rest h in
          Returned (a' :: rest', m') h
      | None =>
          run e with h := lift h (read_dict h a) in
          run a' with h := alloc (Dict e) h in
          run '(rest', m') with h := deepcopy_items ((a, a') :: m) rest h in
          Returned (a' :: rest', m') h
      end
  end.

(** [copy.deepcopy(solution)]: the new list is created empty, registered
    in the memo table and then filled. *)
Definition deepcopy (sol : addr) (h : store) : outcome addr :=
  run items with h := lift h (read_list h sol) in
  run copie with h := alloc (PyList []) h in
  run '(items', _) with h := deepcopy_items [(sol, copie)] items h in
  Returned copie (<[copie := PyList items']> h).

(** [generer_solution_initiale]. *)
Definition generer_solution_initiale (self : algo) (sol : addr) (h : store)
  : outcome (addr * algo) :=
  run puissance with h := lift h (consommation_equipements h sol) in
  let self := set_puissance_initiale self puissance in
  run copie with h := deepcopy sol h in
  Returned (copie, self) h.

(** The items of a list of dictionaries that have [is_usable] set, in
    order. *)
Fixpoint filter_usable (h : store) (items : list addr) : result (list addr) :=
  match items with
  | [] => Ok []
  | a :: rest =>
      e ← read_dict h a;
      us ← filter_usable h rest;
      Ok (if is_usable e then a :: us else us)
  end.

(** [[eqt for eqt in voisin if eqt["is_usable"]]]: a new list, which holds
    the dictionaries of [voisin] that have [is_usable] set. *)
Definition usable (voisin : addr) (h : store) : outcome addr :=
  run items with h := lift h (read_list h voisin) in
  run eqts with h := lift h (filter_usable h items) in
  alloc (PyList eqts) h.

(** [permuter_equipement]. *)
Definition permuter_equipement (sol : addr) (g : Random) (h : store)
  : outcome (addr * Random) :=
  run voisin with h := deepcopy sol h in
  run usable with h := usable voisin h in
  run choices with h := lift h (read_list h usable) in
  run '(eqt, g') with h := lift h (random_choice choices g) in
  run e with h := lift h (read_dict h eqt) in
  Returned (voisin, g') (<[eqt := Dict (toggle e)]> h).

(** The body of the loop of [recuit_simule] (lines 121-161). *)
Definition iteration (self : algo) (f : frame) (h : store) : outcome frame :=
  run objectif_actuel with h :=
    lift h (calculer_objectif self h (solution_actuelle f)) in
  run '(voisin, g1) with h :=
    permuter_equipement (solution_actuelle f) (generator f) h in
  run objectif_voisin with h := lift h (calculer_objectif self h voisin) in
  run '(actuelle, meilleure, objectif, g2) with h :=
    lift h
      (if Rlt_dec objectif_voisin objectif_actuel then
         objectif_meilleure ← calculer_objectif self h (meilleure_solution f);
         if Rlt_dec objectif_voisin objectif_meilleure
         then Ok (voisin, voisin, objectif_voisin, g1)
         else Ok (voisin, meilleure_solution f, meilleure_objectif f, g1)
       else
         quotient ← truediv (objectif_actuel - objectif_voisin) (temperature f);
         let probabilite := exp quotient in
         let '(seuil, g2) := random_random g1 in
         if Rlt_dec seuil probabilite
         then Ok (voisin, meilleure_solution f, meilleure_objectif f, g2)
         else Ok (solution_actuelle f, meilleure_solution f,
                  meilleure_objectif f, g2)) in
  Returned {| solution_actuelle := actuelle;
              meilleure_solution := meilleure;
              meilleure_objectif := objectif;
              temperature := temperature f * _facteur_refroidissement self;
              objectif_actuel := Some objectif_actuel;
              voisin := Some voisin;
              objectif_voisin := Some objectif_voisin;
              generator := g2 |} h.

(** [for _ in range(n): body; if temperature < minimum: break]. *)
Fixpoint boucle (self : algo) (n : nat) (f : frame) (h : store)
  : outcome frame :=
  match n with
  | O => Returned f h
  | S n' =>
      run f' with h := iteration self f h in
      if Rlt_dec (temperature f') (_temperature_minimale self)
      then Returned f' h
      else boucle self n' f' h
  end.

(** Lines 102-110: one dictionary per device, appended to the list at
    [equipements]. *)
Fixpoint build (equipements : addr) (devices : list addr) (h : store)
  : outcome unit :=
  match devices with
  | [] => Returned tt h
  | device :: rest =>
      run d with h := lift h (read_device h device) in
      run eqt with h := alloc (Dict (equipement_of d)) h in
      run items with h := lift h (read_list h equipements) in
      build equipements rest (<[equipements := PyList (items ++ [eqt])]> h)
  end.

(** Lines 95-118. *)
Definition preparer (self : algo) (g : Random) (devices : list addr)
    (power_consumption solar_power_production sell_cost buy_cost
     sell_tax_percent : R) (h : store) : outcome (algo * frame) :=
  let self := set_context self buy_cost sell_cost sell_tax_percent
                power_consumption solar_power_production in
  run equipements with h := alloc (PyList []) h in
  let self := set_equipements self equipements in
  run _ with h := build equipements devices h in
  run '(solution_actuelle, self) with h :=
    generer_solution_initiale self equipements h in
  let meilleure_solution := solution_actuelle in
  run meilleure_objectif with h :=
    lift h (calculer_objectif self h solution_actuelle) in
  Returned (self,
            {| solution_actuelle := solution_actuelle;
               meilleure_solution := meilleure_solution;
               meilleure_objectif := meilleure_objectif;
               temperature := _temperature_initiale self;
               objectif_actuel := None;
               voisin := None;
               objectif_voisin := None;
               generator := g |}) h.

(** [recuit_simule], called with the address of the caller's list of
    devices: the answer, and the solver and the generator as the call
    leaves them. *)
Definition recuit_simule (self : algo) (g : Random) (devices : addr)
    (power_consumption solar_power_production sell_cost buy_cost
     sell_tax_percent : option R) (h : store)
  : outcome (answer * algo * Random) :=
  run items with h := lift h (read_list h devices) in
  match items, power_consumption, solar_power_production,
        sell_cost, buy_cost, sell_tax_percent with
  | _ :: _, Some power_consumption, Some solar_power_production,
    Some sell_cost, Some buy_cost, Some sell_tax_percent =>
      run '(self, f) with h :=
        preparer self g items power_consumption solar_power_production
          sell_cost buy_cost sell_tax_percent h in
      run f with h :=
        boucle self (Z.to_nat (_nombre_iterations self)) f h in
      run puissance with h :=
        lift h (consommation_equipements h (meilleure_solution f)) in
      Returned ((meilleure_solution f, meilleure_objectif f, puissance),
                self, generator f) h
  | _, _, _, _, _, _ =>
      run vide with h := alloc (PyList []) h in
      Returned ((vide, -1, -1), self, g) h
  end.

End Store.

(** * Vocabulary of the properties *)

(** Section 4.1 of the specification, step by step. *)
Definition spec_objective (buy_cost sell_cost sell_tax_percent
    net_consumption baseline_power total_power : R) : R :=
  let delta := total_power - baseline_power in
  let new_net := net_consumption + delta in
  let grid_export := Rmax 0 (- new_net) in
  let grid_import := Rmax 0 new_net in
  let sell_price_after_tax := sell_cost * (1 - sell_tax_percent / 100) in
  let import_weight := buy_cost / (buy_cost + sell_price_after_tax) in
  let export_weight :=
    sell_price_after_tax / (buy_cost + sell_price_after_tax) in
  import_weight * grid_import + export_weight * grid_export.

(** The divisor of the two weights. *)
Definition denominator (buy_cost sell_cost sell_tax_percent : R) : R :=
  buy_cost + sell_cost * (1 - sell_tax_percent / 100).

(** The attributes [recuit_simule] assigns before any score is computed. *)
Definition context_set {Sol : Type} (self : SimulatedAnnealingAlgorithm Sol)
  : Prop :=
  is_Some (_puissance_totale_eqt_initiale self)
  /\ is_Some (_consommation_net self)
  /\ is_Some (_production_solaire self).

(** The call returns a value, and the value satisfies [P]. *)
Definition returns_with {A : Type} (m : result A) (P : A -> Prop) : Prop :=
  match m with
  | Ok a => P a
  | Raise _ => False
  end.

(** The frame after exactly [k] executions of the loop body. *)
Fixpoint iterer (self : Values.algo) (k : nat) (f : Values.frame)
  : result Values.frame :=
  match k with
  | O => Ok f
  | S k' => f' ← Values.iteration self f; iterer self k' f'
  end.

(** The stored best score is the score of the stored best solution, and
    it does not exceed the score of the current solution. *)
Definition best_sound (self : Values.algo) (f : Values.frame) : Prop :=
  Values.calculer_objectif self (meilleure_solution f) = Ok (meilleure_objectif f)
  /\ exists oc, Values.calculer_objectif self (solution_actuelle f) = Ok oc
                /\ meilleure_objectif f <= oc.

(** Two solutions describe the same devices, and agree on the state of
    those the solver may not toggle. *)
Definition same_fixed (sol sol' : Values.solution) : Prop :=
  Forall2 (fun e e' =>
             name e' = name e /\ power_max e' = power_max e
             /\ is_usable e' = is_usable e
             /\ (is_usable e = false -> state e' = state e)) sol sol'.

(** A solution has, at the position of every device of the input that the
    solver may not toggle, a dictionary for that device, not usable, with
    the state the device had. *)
Definition fixed_states_kept (devices : list ManagedDevice)
    (sol : Values.solution) : Prop :=
  length sol = length devices
  /\ forall i dev, devices !! i = Some dev -> dev_is_usable dev = false ->
       exists e, sol !! i = Some e /\ name e = dev_name dev
                 /\ is_usable e = false /\ state e = is_active dev.

(** The condition of lines 73-80: the list of devices is empty or one of
    the five numbers is [None]. *)
Definition missing_input {D : Type} (devices : list D)
    (power_consumption solar_power_production sell_cost buy_cost
     sell_tax_percent : option R) : Prop :=
  devices = [] \/ power_consumption = None \/ solar_power_production = None
  \/ sell_cost = None \/ buy_cost = None \/ sell_tax_percent = None.

(** Every address a memo table answers with is at least [base]. *)
Definition memo_fresh (base : nat) (m : Store.memo) : Prop :=
  Forall (fun kv => (base <= snd kv)%nat) m.

(** ** Reading the store

    The link between the two semantics: what a solution in the store
    denotes, and when a frame of the store semantics denotes a frame of the
    value semantics. *)

(** At address [a], the store holds a list of pairwise distinct
    dictionaries whose contents, in order, are [eqts]. *)
Definition sol_at (h : list Store.object) (a : nat) (eqts : list Equipement)
  : Prop :=
  exists items,
    h !! a = Some (Store.PyList items)
    /\ NoDup items
    /\ Forall2 (fun i e => h !! i = Some (Store.Dict e)) items eqts.

(** The store [h] followed by a new list and new dictionaries with the
    contents [eqts]. *)
Definition with_copy (h : list Store.object) (eqts : list Equipement)
  : list Store.object :=
  h ++ Store.PyList (seq (S (length h)) (length eqts))
         :: (Store.Dict <$> eqts).

(** The store [h] followed by what [permuter_equipement] creates for a
    neighbour with the contents [eqts]: the new list and its new
    dictionaries, and then the list [usable] of those of them that have
    [is_usable] set. *)
Definition with_neighbour (h : list Store.object) (eqts : list Equipement)
  : list Store.object :=
  with_copy h eqts
  ++ [Store.PyList ((fun i => (S (length h) + i)%nat) <$> Values.usable eqts)].

(** The attributes of a solver other than [_equipements]. *)
Definition numbers {Sol : Type} (self : SimulatedAnnealingAlgorithm Sol)
  : SimulatedAnnealingAlgorithm unit :=
  {| _temperature_initiale := _temperature_initiale self;
     _temperature_minimale := _temperature_minimale self;
     _facteur_refroidissement := _facteur_refroidissement self;
     _nombre_iterations := _nombre_iterations self;
     _equipements := None;
     _puissance_totale_eqt_initiale := _puissance_totale_eqt_initiale self;
     _cout_achat := _cout_achat self;
     _cout_revente := _cout_revente self;
     _taxe_revente := _taxe_revente self;
     _consommation_net := _consommation_net self;
     _production_solaire := _production_solaire self |}.

(** The frame [fs] of the store semantics, read in the store [h], is the
    frame [fv] of the value semantics. *)
Definition frame_at (h : list Store.object) (fs : Store.frame)
    (fv : Values.frame) : Prop :=
  sol_at h (solution_actuelle fs) (solution_actuelle fv)
  /\ sol_at h (meilleure_solution fs) (meilleure_solution fv)
  /\ meilleure_objectif fs = meilleure_objectif fv
  /\ temperature fs = temperature fv
  /\ objectif_actuel fs = objectif_actuel fv
  /\ objectif_voisin fs = objectif_voisin fv
  /\ generator fs = generator fv
  /\ match voisin fs, voisin fv with
     | Some a, Some v => sol_at h a v
     | None, None => True
     | _, _ => False
     end.

(** ** Further vocabulary *)

(** The four annealing parameters [__init__] stores. *)
Definition parameters {Sol : Type} (self : SimulatedAnnealingAlgorithm Sol)
  : R * R * R * Z :=
  (_temperature_initiale self, _temperature_minimale self,
   _facteur_refroidissement self, _nombre_iterations self).

(** What a caller gets from [recuit_simule]: the tuple it returns, and the
    random generator as the call leaves it. *)
Definition answer_and_generator
    (m : result (Values.answer * Values.algo * Random))
  : result (Values.answer * Random) :=
  '(ans, _, g) ← m; Ok (ans, g).

(** The frame [f] with another temperature. *)
Definition set_temperature {Sol : Type} (f : Frame Sol) (T : R) : Frame Sol :=
  {| solution_actuelle := solution_actuelle f;
     meilleure_solution := meilleure_solution f;
     meilleure_objectif := meilleure_objectif f;
     temperature := T;
     objectif_actuel := objectif_actuel f;
     voisin := voisin f;
     objectif_voisin := objectif_voisin f;
     generator := generator f |}.

(** The rated power of all the dictionaries of a solution, on or off. *)
Definition rated_power (eqts : list Equipement) : R :=
  fold_left Rplus (power_max <$> eqts) 0.

(** What switching a dictionary adds to the total power. *)
Definition switch_power (e : Equipement) : R :=
  if state e then - power_max e else power_max e.

(** The solver as lines 95-115 of [recuit_simule] leave it. *)
Definition prepared (self : Values.algo) (devices : list ManagedDevice)
    (power_consumption solar_power_production sell_cost buy_cost
     sell_tax_percent : R) : Values.algo :=
  set_puissance_initiale
    (set_equipements
       (set_context self buy_cost sell_cost sell_tax_percent
          power_consumption solar_power_production)
       (equipement_of <$> devices))
    (total_power (equipement_of <$> devices)).



(** ** Sample data

    The example of section 8 of the specification, a solver with the
    class's default annealing parameters, and a generator. *)

Definition device_A : ManagedDevice :=
  {| dev_name := "A"%string; dev_power_max := 1000;
     is_active := false; dev_is_usable := true |}.

Definition device_B : ManagedDevice :=
  {| dev_name := "B"%string; dev_power_max := 500;
     is_active := false; dev_is_usable := true |}.

(** A device the solver may not toggle. *)
Definition device_F : ManagedDevice :=
  {| dev_name := "F"%string; dev_power_max := 300;
     is_active := true; dev_is_usable := false |}.

Definition sample_solver {Sol : Type} : SimulatedAnnealingAlgorithm Sol :=
  init 1000 (1 / 10) (95 / 100) 1000.

Definition sample_random : Random :=
  {| entiers := fun k => k; reels := fun _ => 1 / 2; curseur := 0 |}.

(** A solver in the middle of a call, with the sample tariffs. *)
Definition sample_self : Values.algo :=
  set_puissance_initiale
    (set_context sample_solver 15 10 13 (-1200) 1200) 0.

(** The same, with a buy cost and a sell cost of zero. *)
Definition free_self : Values.algo :=
  set_puissance_initiale
    (set_context sample_solver 0 0 13 (-1200) 1200) 0.

(** A frame of the sample call in which device A has been switched on. *)
Definition warm_frame : Values.frame :=
  {| solution_actuelle := [toggle (equipement_of device_A); equipement_of device_B];
     meilleure_solution := [toggle (equipement_of device_A); equipement_of device_B];
     meilleure_objectif :=
       spec_objective 15 10 13 (-1200) 0 (0 + 1000);
     temperature := 1000;
     objectif_actuel := None;
     voisin := None;
     objectif_voisin := None;
     generator := sample_random |}.

(** A store with the caller's list of the devices [A] and [B] at address 0,
    and a solution for them at address 3. *)
Definition sample_store : list Store.object :=
  [Store.PyList [1; 2]%nat; Store.Device device_A; Store.Device device_B;
   Store.PyList [4; 5]%nat; Store.Dict (equipement_of device_A);
   Store.Dict (equipement_of device_B)].

(** A store with a solution, at address 0, whose only dictionary is not
    usable. *)
Definition fixed_store : list Store.object :=
  [Store.PyList [1%nat]; Store.Dict (equipement_of device_F)].

(** A usable device that draws no power, and a frame of the sample call
    whose solution is that device alone. *)
Definition device_Z : ManagedDevice :=
  {| dev_name := "Z"%string; dev_power_max := 0;
     is_active := false; dev_is_usable := true |}.

Definition idle_frame : Values.frame :=
  {| solution_actuelle := [equipement_of device_Z];
     meilleure_solution := [equipement_of device_Z];
     meilleure_objectif := spec_objective 15 10 13 (-1200) 0 0;
     temperature := 1000;
     objectif_actuel := None;
     voisin := None;
     objectif_voisin := None;
     generator := sample_random |}.

(** A frame of the store semantics whose current and best solution is
    the one at address 3 of [sample_store]. *)
Definition sample_store_frame : Store.frame :=
  {| solution_actuelle := 3%nat;
     meilleure_solution := 3%nat;
     meilleure_objectif := spec_objective 15 10 13 (-1200) 0 0;
     temperature := 1000;
     objectif_actuel := None;
     voisin := None;
     objectif_voisin := None;
     generator := sample_random |}.

(** * Part III: properties *)

(** ** Results and numbers *)

Lemma truediv_ok (a b : R) : b <> 0 -> truediv a b = Ok (a / b).
Proof. intros Hb. unfold truediv. destruct (Req_dec_T b 0); [contradiction | reflexivity]. Qed.

Lemma truediv_zero (a b : R) : b = 0 -> truediv a b = Raise ZeroDivisionError.
Proof. intros Hb. unfold truediv. destruct (Req_dec_T b 0); [reflexivity | contradiction]. Qed.

Lemma bind_Ok {A B : Type} (m : result A) (k : A -> result B) (b : B) :
  m ≫= k = Ok b -> exists a, m = Ok a /\ k a = Ok b.
Proof. destruct m as [a | e]; simpl; [eauto | discriminate]. Qed.

Lemma import_is_max (x : R) : (if Rlt_dec x 0 then 0 else x) = Rmax 0 x.
Proof. unfold Rmax. destruct (Rlt_dec x 0), (Rle_dec 0 x); lra. Qed.

Lemma rejets_is_max (x : R) : (if Rge_dec x 0 then 0 else - x) = Rmax 0 (- x).
Proof. unfold Rmax. destruct (Rge_dec x 0), (Rle_dec 0 (- x)); lra. Qed.

(** ** The objective *)

Section Objectif.
Context {Sol : Type} (self : SimulatedAnnealingAlgorithm Sol).
Variables initiale net production : R.
Hypothesis Hinit : _puissance_totale_eqt_initiale self = Some initiale.
Hypothesis Hnet : _consommation_net self = Some net.
Hypothesis Hprod : _production_solaire self = Some production.

Let d := denominator (_cout_achat self) (_cout_revente self) (_taxe_revente self).
Let score (p : R) :=
  spec_objective (_cout_achat self) (_cout_revente self)
    (_taxe_revente self) net initiale p.

Lemma objectif_zero (p : R) : d = 0 -> objectif self p = Raise ZeroDivisionError.
Proof.
  intros Hd. unfold objectif. rewrite Hinit, Hnet, Hprod. simpl.
  rewrite (truediv_zero (_cout_achat self)) by exact Hd. reflexivity.
Qed.

Lemma objectif_value (p : R) : d <> 0 -> objectif self p = Ok (score p).
Proof.
  intros Hd. unfold objectif. rewrite Hinit, Hnet, Hprod. simpl.
  rewrite !truediv_ok by exact Hd. simpl.
  rewrite import_is_max, rejets_is_max. reflexivity.
Qed.
End Objectif.

(** ** The value semantics of the entry point *)

Lemma calculer_objectif_value (self : Values.algo) (sol : Values.solution)
    (initiale net production : R) :
  _puissance_totale_eqt_initiale self = Some initiale ->
  _consommation_net self = Some net ->
  _production_solaire self = Some production ->
  denominator (_cout_achat self) (_cout_revente self) (_taxe_revente self) <> 0 ->
  Values.calculer_objectif self sol
  = Ok (spec_objective (_cout_achat self) (_cout_revente self)
          (_taxe_revente self) net initiale (total_power sol)).
Proof.
  intros Hi Hn Hp Hd. unfold Values.calculer_objectif, Values.consommation_equipements.
  eapply objectif_value; eassumption.
Qed.

Lemma calculer_objectif_zero (self : Values.algo) (sol : Values.solution) :
  context_set self ->
  denominator (_cout_achat self) (_cout_revente self) (_taxe_revente self) = 0 ->
  Values.calculer_objectif self sol = Raise ZeroDivisionError.
Proof.
  intros ([i Hi] & [n Hn] & [p Hp]) Hd. unfold Values.calculer_objectif.
  eapply objectif_zero; eassumption.
Qed.

(** What [preparer] returns when the divisor of the weights is not zero. *)
Lemma preparer_value (self : Values.algo) (g : Random)
    (devices : list ManagedDevice) (pc sp sc bc stp : R) :
  denominator bc sc stp <> 0 ->
  let eqts := equipement_of <$> devices in
  let self' :=
    set_puissance_initiale
      (set_equipements (set_context self bc sc stp pc sp) eqts)
      (total_power eqts) in
  Values.preparer self g devices pc sp sc bc stp
  = Ok (self',
        {| solution_actuelle := eqts;
           meilleure_solution := eqts;
           meilleure_objectif :=
             spec_objective bc sc stp pc (total_power eqts) (total_power eqts);
           temperature := _temperature_initiale self;
           objectif_actuel := None;
           voisin := None;
           objectif_voisin := None;
           generator := g |}).
Proof.
  intros Hd eqts self'. unfold Values.preparer, Values.generer_solution_initiale.
  fold eqts. unfold Values.consommation_equipements. fold self'.
  rewrite (calculer_objectif_value self' eqts (total_power eqts) pc sp)
    by (try reflexivity; exact Hd).
  reflexivity.
Qed.

Lemma preparer_zero (self : Values.algo) (g : Random)
    (devices : list ManagedDevice) (pc sp sc bc stp : R) :
  denominator bc sc stp = 0 ->
  Values.preparer self g devices pc sp sc bc stp = Raise ZeroDivisionError.
Proof.
  intros Hd. unfold Values.preparer, Values.generer_solution_initiale.
  rewrite calculer_objectif_zero; [reflexivity | | exact Hd].
  repeat split; eexists; reflexivity.
Qed.

(** The parts of an iteration, when it returns. *)
Lemma iteration_Ok (self : Values.algo) (f f' : Values.frame) :
  Values.iteration self f = Ok f' ->
  exists oa v g1 ov,
    Values.calculer_objectif self (solution_actuelle f) = Ok oa
    /\ Values.permuter_equipement (solution_actuelle f) (generator f) = Ok (v, g1)
    /\ Values.calculer_objectif self v = Ok ov
    /\ objectif_actuel f' = Some oa
    /\ voisin f' = Some v
    /\ objectif_voisin f' = Some ov
    /\ temperature f' = temperature f * _facteur_refroidissement self.
Proof.
  unfold Values.iteration. intros H.
  apply bind_Ok in H as (oa & Hoa & H).
  apply bind_Ok in H as ([v g1] & Hv & H).
  apply bind_Ok in H as (ov & Hov & H).
  apply bind_Ok in H as ([[[a m] o] g2] & _ & H).
  injection H as <-. exists oa, v, g1, ov. repeat split; assumption.
Qed.

(** C1.  In a call whose tariffs give a non-zero divisor, [preparer] stores
    the total active power of the initial solution as the baseline, once;
    from then on every score computed in the call, the one of the initial
    solution, the one of any solution passed to [calculer_objectif], and
    the ones of the current solution and of the neighbour in every
    iteration, is the value section 4.1 of the specification defines:
    [import_weight * grid_import + export_weight * grid_export] for that
    baseline. *)
Theorem C1_objective_formula (self : Values.algo) (g : Random)
    (devices : list ManagedDevice) (pc sp sc bc stp : R) :
  denominator bc sc stp <> 0 ->
  returns_with (Values.preparer self g devices pc sp sc bc stp)
    (fun '(self', f0) =>
       let baseline := total_power (equipement_of <$> devices) in
       let score sol := spec_objective bc sc stp pc baseline (total_power sol) in
       _puissance_totale_eqt_initiale self' = Some baseline
       /\ solution_actuelle f0 = equipement_of <$> devices
       /\ meilleure_objectif f0 = score (solution_actuelle f0)
       /\ (forall sol, Values.calculer_objectif self' sol = Ok (score sol))
       /\ (forall f f', Values.iteration self' f = Ok f' ->
             objectif_actuel f' = Some (score (solution_actuelle f))
             /\ exists v, voisin f' = Some v
                          /\ objectif_voisin f' = Some (score v))).
Proof.
  intros Hd. rewrite preparer_value by exact Hd. simpl.
  set (eqts := equipement_of <$> devices).
  set (self' := set_puissance_initiale _ _).
  assert (Hscore : forall sol, Values.calculer_objectif self' sol
            = Ok (spec_objective bc sc stp pc (total_power eqts) (total_power sol))).
  { intros sol. apply (calculer_objectif_value self' sol _ pc sp); try reflexivity.
    exact Hd. }
  repeat split; try reflexivity; try exact Hscore.
  - apply iteration_Ok in H as (oa & v & g1 & ov & Hoa & _ & _ & -> & _).
    rewrite Hscore in Hoa. congruence.
  - apply iteration_Ok in H as (oa & v & g1 & ov & _ & _ & Hov & _ & -> & -> & _).
    exists v. rewrite Hscore in Hov. split; congruence.
Qed.

Lemma C1_objective_formula_witness :
  returns_with
    (Values.preparer sample_solver sample_random [device_A; device_B]
       (-1200) 1200 10 15 13)
    (fun '(self', f0) =>
       forall sol, Values.calculer_objectif self' sol
                   = Ok (spec_objective 15 10 13 (-1200) 0 (total_power sol))).
Proof.
  assert (Hd : denominator 15 10 13 <> 0) by (unfold denominator; lra).
  pose proof (C1_objective_formula sample_solver sample_random
                [device_A; device_B] (-1200) 1200 10 15 13 Hd) as H.
  destruct (Values.preparer _ _ _ _ _ _ _ _) as [[self' f0] | e]; [| exact H].
  destruct H as (_ & _ & _ & H & _). exact H.
Defined.

(** C7, as the code has it.  [calculer_objectif] validates nothing: when
    [buy_cost + sell_cost * (1 - sell_tax_percent / 100)] is zero, the
    division itself raises Python's [ZeroDivisionError], so no score is
    produced; the same exception ends [preparer], hence the call. *)
Theorem C7_zero_divisor_raises (self : Values.algo) (sol : Values.solution) :
  context_set self ->
  denominator (_cout_achat self) (_cout_revente self) (_taxe_revente self) = 0 ->
  Values.calculer_objectif self sol = Raise ZeroDivisionError
  /\ (forall g devices pc sp,
        Values.preparer self g devices pc sp (_cout_revente self)
          (_cout_achat self) (_taxe_revente self)
        = Raise ZeroDivisionError).
Proof.
  intros Hc Hd. split.
  - apply calculer_objectif_zero; assumption.
  - intros. apply preparer_zero. exact Hd.
Qed.

Lemma free_self_context : context_set free_self.
Proof. repeat split; eexists; reflexivity. Qed.

Lemma free_self_denominator :
  denominator (_cout_achat free_self) (_cout_revente free_self)
    (_taxe_revente free_self) = 0.
Proof. unfold denominator. simpl. lra. Qed.

Lemma C7_zero_divisor_raises_witness :
  Values.calculer_objectif free_self [] = Raise ZeroDivisionError.
Proof.
  exact (proj1 (C7_zero_divisor_raises free_self []
                  free_self_context free_self_denominator)).
Defined.

(** C7, as the specification states it, fails: with a buy cost and a sell
    cost of zero the divisor is zero and the exception raised is not
    [InvalidTariff]. *)
Lemma C7_counterexample :
  denominator (_cout_achat free_self) (_cout_revente free_self)
    (_taxe_revente free_self) = 0
  /\ Values.calculer_objectif free_self [] <> Raise InvalidTariff.
Proof.
  split; [exact free_self_denominator |].
  rewrite (calculer_objectif_zero free_self []
             free_self_context free_self_denominator).
  discriminate.
Qed.

(** ** Sign of the objective *)

Lemma denominator_pos (bc sc stp : R) :
  0 < bc -> 0 <= sc -> stp <= 100 -> 0 < denominator bc sc stp.
Proof.
  intros Hb Hs Ht. unfold denominator.
  assert (0 <= sc * (1 - stp / 100)) by (apply Rmult_le_pos; lra). lra.
Qed.

Lemma spec_objective_nonneg (bc sc stp net baseline p : R) :
  0 < bc -> 0 <= sc -> stp <= 100 ->
  0 <= spec_objective bc sc stp net baseline p.
Proof.
  intros Hb Hs Ht. unfold spec_objective.
  pose proof (denominator_pos bc sc stp Hb Hs Ht) as Hd. unfold denominator in Hd.
  assert (Hw : 0 <= sc * (1 - stp / 100)) by (apply Rmult_le_pos; lra).
  assert (Hi : 0 < / (bc + sc * (1 - stp / 100))) by (apply Rinv_0_lt_compat; lra).
  apply Rplus_le_le_0_compat; apply Rmult_le_pos;
    try apply Rmax_l; unfold Rdiv; apply Rmult_le_pos; lra.
Qed.

Lemma sample_self_context : context_set sample_self.
Proof. repeat split; eexists; reflexivity. Qed.

(** ** The random generator *)

Lemma random_choice_nil {A : Type} (g : Random) :
  random_choice (@nil A) g = Raise IndexError.
Proof. reflexivity. Qed.

Lemma random_choice_Ok {A : Type} (seq : list A) (g g' : Random) (x : A) :
  random_choice seq g = Ok (x, g') -> x ∈ seq /\ g' = avancer g.
Proof.
  unfold random_choice.
  destruct (seq !! _) as [y |] eqn:Hy; [| discriminate].
  intros [= -> <-]. split; [| reflexivity].
  eapply list_elem_of_lookup_2. exact Hy.
Qed.

Lemma random_choice_returns {A : Type} (seq : list A) (g : Random) :
  seq <> [] -> exists x, x ∈ seq /\ random_choice seq g = Ok (x, avancer g).
Proof.
  intros Hne. unfold random_choice.
  assert (Hlt : (entiers g (curseur g) mod length seq < length seq)%nat).
  { apply Nat.mod_upper_bound. destruct seq; [contradiction | simpl; lia]. }
  apply lookup_lt_is_Some_2 in Hlt as [x Hx]. rewrite Hx.
  exists x. split; [| reflexivity]. eapply list_elem_of_lookup_2. exact Hx.
Qed.

(** ** Neighbours, on values *)

Lemma elem_of_usable (sol : Values.solution) (i : nat) :
  i ∈ Values.usable sol <-> exists e, sol !! i = Some e /\ is_usable e = true.
Proof.
  unfold Values.usable. rewrite list_elem_of_fmap. split.
  - intros ([j e] & -> & H). apply list_elem_of_filter in H as [Hu H].
    apply elem_of_lookup_imap in H as (k & y & [= -> ->] & Hk).
    exists y. split; assumption.
  - intros (e & He & Hu). exists (i, e). split; [reflexivity |].
    apply list_elem_of_filter. split; [exact Hu |].
    apply elem_of_lookup_imap. exists i, e. split; [reflexivity | exact He].
Qed.

Lemma permuter_equipement_Ok (sol v : Values.solution) (g g1 : Random) :
  Values.permuter_equipement sol g = Ok (v, g1) ->
  exists i e, sol !! i = Some e /\ is_usable e = true
              /\ v = alter toggle i sol /\ g1 = avancer g.
Proof.
  unfold Values.permuter_equipement. intros H.
  apply bind_Ok in H as ([i g'] & Hc & [= <- <-]).
  apply random_choice_Ok in Hc as [Hi ->].
  apply elem_of_usable in Hi as (e & He & Hu). exists i, e. auto.
Qed.

Lemma permuter_equipement_empty (sol : Values.solution) (g : Random) :
  Values.usable sol = [] ->
  Values.permuter_equipement sol g = Raise IndexError.
Proof. intros H. unfold Values.permuter_equipement. rewrite H. reflexivity. Qed.

Lemma permuter_equipement_returns (sol : Values.solution) (g : Random) :
  Values.usable sol <> [] ->
  exists i, i ∈ Values.usable sol
            /\ Values.permuter_equipement sol g
               = Ok (alter toggle i sol, avancer g).
Proof.
  intros H. apply (random_choice_returns _ g) in H as (i & Hi & Hc).
  exists i. split; [exact Hi |].
  unfold Values.permuter_equipement. rewrite Hc. reflexivity.
Qed.

Lemma toggle_changes (sol : Values.solution) (i : nat) (e : Equipement) :
  sol !! i = Some e -> alter toggle i sol <> sol.
Proof.
  intros He Heq. assert (H : alter toggle i sol !! i = Some e) by (rewrite Heq; exact He).
  rewrite list_lookup_alter_eq, He in H. simpl in H.
  injection H as H. apply (f_equal state) in H. simpl in H.
  destruct (state e); discriminate.
Qed.

Lemma same_fixed_refl (sol : Values.solution) : same_fixed sol sol.
Proof. apply Forall2_same_length_lookup. split; [reflexivity |].
  intros i x y Hx Hy. rewrite Hx in Hy. injection Hy as <-. auto. Qed.

Lemma same_fixed_trans (a b c : Values.solution) :
  same_fixed a b -> same_fixed b c -> same_fixed a c.
Proof.
  unfold same_fixed. intros Hab Hbc.
  eapply Forall2_trans; [| exact Hab | exact Hbc].
  simpl. intros x y z (Hn & Hp & Hu & Hs) (Hn' & Hp' & Hu' & Hs').
  repeat split; try congruence.
  intros Hx. rewrite Hs' by congruence. auto.
Qed.

Lemma same_fixed_toggle (sol : Values.solution) (i : nat) (e : Equipement) :
  sol !! i = Some e -> is_usable e = true -> same_fixed sol (alter toggle i sol).
Proof.
  intros He Hu. unfold same_fixed. apply Forall2_alter_r; [apply same_fixed_refl |].
  intros x y Hx Hy (Hn & Hp & Hux & Hs). simpl. repeat split; try assumption.
  intros Hf. rewrite He in Hx. injection Hx as <-. congruence.
Qed.

Lemma same_fixed_usable (a b : Values.solution) :
  same_fixed a b -> Values.usable a = [] -> Values.usable b = [].
Proof.
  intros Hab Ha. destruct (Values.usable b) as [| i us] eqn:Hb; [reflexivity |].
  assert (Hi : i ∈ Values.usable b) by (rewrite Hb; left).
  apply elem_of_usable in Hi as (e' & He' & Hu').
  destruct (Forall2_lookup_r _ _ _ _ _ Hab He') as (e & He & _ & _ & Hu & _).
  assert (Hin : i ∈ Values.usable a) by (apply elem_of_usable; exists e; split; congruence).
  rewrite Ha in Hin. inversion Hin.
Qed.

(** ** One iteration, on values *)

(** Every way an iteration can return. *)
Lemma iteration_cases (self : Values.algo) (f f' : Values.frame) :
  Values.iteration self f = Ok f' ->
  exists oa v g1 ov,
    Values.calculer_objectif self (solution_actuelle f) = Ok oa
    /\ Values.permuter_equipement (solution_actuelle f) (generator f) = Ok (v, g1)
    /\ Values.calculer_objectif self v = Ok ov
    /\ objectif_actuel f' = Some oa
    /\ voisin f' = Some v
    /\ objectif_voisin f' = Some ov
    /\ temperature f' = temperature f * _facteur_refroidissement self
    /\ ((ov < oa
         /\ solution_actuelle f' = v /\ generator f' = g1
         /\ exists ob,
              Values.calculer_objectif self (meilleure_solution f) = Ok ob
              /\ ((ov < ob /\ meilleure_solution f' = v
                   /\ meilleure_objectif f' = ov)
                  \/ (~ ov < ob
                      /\ meilleure_solution f' = meilleure_solution f
                      /\ meilleure_objectif f' = meilleure_objectif f)))
        \/ (~ ov < oa
            /\ temperature f <> 0
            /\ generator f' = avancer g1
            /\ meilleure_solution f' = meilleure_solution f
            /\ meilleure_objectif f' = meilleure_objectif f
            /\ ((fst (random_random g1) < exp ((oa - ov) / temperature f)
                 /\ solution_actuelle f' = v)
                \/ (~ fst (random_random g1) < exp ((oa - ov) / temperature f)
                    /\ solution_actuelle f' = solution_actuelle f)))).
Proof.
  unfold Values.iteration. intros H.
  apply bind_Ok in H as (oa & Hoa & H).
  apply bind_Ok in H as ([v g1] & Hv & H).
  apply bind_Ok in H as (ov & Hov & H).
  apply bind_Ok in H as ([[[a m] o] g2] & Hb & H).
  injection H as <-. exists oa, v, g1, ov. simpl.
  repeat (split; [first [assumption | reflexivity] |]).
  destruct (Rlt_dec ov oa) as [Hlt | Hge].
  - left. apply bind_Ok in Hb as (ob & Hob & Hb).
    destruct (Rlt_dec ov ob) as [Hlt' | Hge']; injection Hb as <- <- <- <-;
      (split; [exact Hlt |]); (split; [reflexivity |]); (split; [reflexivity |]);
      exists ob; (split; [exact Hob |]); [left | right]; auto.
  - right. apply bind_Ok in Hb as (q & Hq & Hb).
    unfold truediv in Hq. destruct (Req_dec_T (temperature f) 0) as [| HT];
      [discriminate |]. injection Hq as <-. simpl in Hb.
    destruct (Rlt_dec _ _) as [Hu | Hu]; injection Hb as <- <- <- <-;
      repeat (split; [first [assumption | reflexivity] |]); [left | right]; auto.
Qed.

Lemma iteration_best_sound (self : Values.algo) (f f' : Values.frame) :
  best_sound self f -> Values.iteration self f = Ok f' ->
  best_sound self f'
  /\ meilleure_objectif f' <= meilleure_objectif f
  /\ exists v ov, voisin f' = Some v
                  /\ Values.calculer_objectif self v = Ok ov
                  /\ meilleure_objectif f' <= ov.
Proof.
  intros (Hb & oc & Hoc & Hle) H.
  apply iteration_cases in H
    as (oa & v & g1 & ov & Hoa & _ & Hov & _ & Hv & _ & _ & Hcase).
  assert (oa = oc) as -> by congruence.
  destruct Hcase as [(Hlt & Hcur & _ & ob & Hob & Hbest)
                    | (Hge & _ & _ & Hbs & Hbo & Hacc)].
  - assert (ob = meilleure_objectif f) as -> by congruence.
    destruct Hbest as [(Hlt' & Hbs & Hbo) | (Hge' & Hbs & Hbo)];
      unfold best_sound; rewrite Hbs, Hbo, Hcur.
    + split; [split; [exact Hov | exists ov; split; [exact Hov | lra]] |].
      split; [lra |]. exists v, ov. repeat split; [exact Hv | exact Hov | lra].
    + split; [split; [exact Hb | exists ov; split; [exact Hov | lra]] |].
      split; [lra |]. exists v, ov. repeat split; [exact Hv | exact Hov | lra].
  - unfold best_sound. rewrite Hbs, Hbo.
    split; [split; [exact Hb |] |].
    + destruct Hacc as [(_ & ->) | (_ & ->)];
        [exists ov | exists oc]; split; first [assumption | lra].
    + split; [lra |]. exists v, ov. repeat split; [exact Hv | exact Hov | lra].
Qed.

Lemma calculer_objectif_returns (self : Values.algo) (sol : Values.solution) :
  context_set self ->
  denominator (_cout_achat self) (_cout_revente self) (_taxe_revente self) <> 0 ->
  returns (Values.calculer_objectif self sol).
Proof.
  intros ([i Hi] & [n Hn] & [p Hp]) Hd. eexists.
  apply (calculer_objectif_value self sol i n p); assumption.
Qed.

Lemma iteration_returns (self : Values.algo) (f : Values.frame) :
  (forall sol, returns (Values.calculer_objectif self sol)) ->
  Values.usable (solution_actuelle f) <> [] ->
  temperature f <> 0 ->
  returns (Values.iteration self f).
Proof.
  intros Hobj Hus HT. unfold Values.iteration.
  destruct (Hobj (solution_actuelle f)) as [oa ->]. simpl.
  destruct (permuter_equipement_returns _ (generator f) Hus) as (i & _ & ->). simpl.
  destruct (Hobj (alter toggle i (solution_actuelle f))) as [ov ->]. simpl.
  destruct (Rlt_dec ov oa).
  - destruct (Hobj (meilleure_solution f)) as [ob ->]. simpl.
    destruct (Rlt_dec ov ob); simpl; eexists; reflexivity.
  - rewrite truediv_ok by exact HT. simpl.
    destruct (Rlt_dec _ _); simpl; eexists; reflexivity.
Qed.

(** C2.  In an iteration where the neighbour does not score below the
    current solution, the neighbour becomes the current solution exactly
    when the number [random.random()] draws is below
    [exp((objectif_actuel - objectif_voisin) / temperature)], the current
    solution is kept otherwise, and the best solution and its score are
    left as they were. *)
Theorem C2_metropolis_acceptance (self : Values.algo) (f f' : Values.frame) :
  Values.iteration self f = Ok f' ->
  exists oa v g1 ov,
    Values.calculer_objectif self (solution_actuelle f) = Ok oa
    /\ Values.permuter_equipement (solution_actuelle f) (generator f) = Ok (v, g1)
    /\ Values.calculer_objectif self v = Ok ov
    /\ (oa <= ov ->
        let u := fst (random_random g1) in
        let p := exp ((oa - ov) / temperature f) in
        (solution_actuelle f' = v <-> u < p)
        /\ (solution_actuelle f' = solution_actuelle f <-> ~ u < p)
        /\ meilleure_solution f' = meilleure_solution f
        /\ meilleure_objectif f' = meilleure_objectif f).
Proof.
  intros H. apply iteration_cases in H
    as (oa & v & g1 & ov & Hoa & Hperm & Hov & _ & _ & _ & _ & Hcase).
  exists oa, v, g1, ov. repeat (split; [assumption |]).
  intros Hle. destruct Hcase as [(Hlt & _) | (_ & _ & _ & Hbs & Hbo & Hacc)]; [lra |].
  apply permuter_equipement_Ok in Hperm as (i & e & He & _ & Hv & _).
  assert (Hne : v <> solution_actuelle f) by (rewrite Hv; eapply toggle_changes; exact He).
  simpl. repeat split; try assumption;
    destruct Hacc as [(Hu & Hcur) | (Hu & Hcur)]; rewrite ?Hcur; intros; try tauto;
    congruence.
Qed.

Lemma sample_self_score (sol : Values.solution) :
  Values.calculer_objectif sample_self sol
  = Ok (spec_objective 15 10 13 (-1200) 0 (total_power sol)).
Proof.
  apply (calculer_objectif_value sample_self sol 0 (-1200) 1200); try reflexivity.
  unfold denominator. simpl. lra.
Qed.

Lemma sample_scores_order :
  spec_objective 15 10 13 (-1200) 0 (0 + 1000)
  <= spec_objective 15 10 13 (-1200) 0 0.
Proof.
  unfold spec_objective.
  replace (Rmax 0 (-1200 + (0 + 1000 - 0))) with 0
    by (rewrite Rmax_left; lra).
  replace (Rmax 0 (- (-1200 + (0 + 1000 - 0)))) with 200
    by (rewrite Rmax_right; lra).
  replace (Rmax 0 (-1200 + (0 - 0))) with 0 by (rewrite Rmax_left; lra).
  replace (Rmax 0 (- (-1200 + (0 - 0)))) with 1200 by (rewrite Rmax_right; lra).
  lra.
Qed.

Lemma C2_metropolis_acceptance_witness :
  exists f', Values.iteration sample_self warm_frame = Ok f'
             /\ meilleure_solution f' = meilleure_solution warm_frame
             /\ meilleure_objectif f' = meilleure_objectif warm_frame.
Proof.
  destruct (iteration_returns sample_self warm_frame) as [f' Hf].
  - intros sol. eexists. apply sample_self_score.
  - discriminate.
  - simpl. lra.
  - exists f'. split; [exact Hf |].
    destruct (C2_metropolis_acceptance sample_self warm_frame f' Hf)
      as (oa & v & g1 & ov & Hoa & Hperm & Hov & H).
    rewrite sample_self_score in Hoa. injection Hoa as <-.
    injection Hperm as <- <-.
    rewrite sample_self_score in Hov. injection Hov as <-.
    apply H. exact sample_scores_order.
Defined.

(** ** The loop, on values *)

Lemma iterer_snoc (self : Values.algo) (k : nat) (f : Values.frame) :
  iterer self (S k) f = iterer self k f ≫= Values.iteration self.
Proof.
  revert f. induction k as [| k IH]; intros f.
  - simpl. destruct (Values.iteration self f); reflexivity.
  - change (iterer self (S (S k)) f)
      with (Values.iteration self f ≫= iterer self (S k)).
    change (iterer self (S k) f) with (Values.iteration self f ≫= iterer self k).
    destruct (Values.iteration self f) as [f1 | e]; simpl; [apply IH | reflexivity].
Qed.

Lemma iterer_prefix (self : Values.algo) (j k : nat) (f fk : Values.frame) :
  iterer self k f = Ok fk -> (j <= k)%nat -> returns (iterer self j f).
Proof.
  revert j f. induction k as [| k IH]; intros j f H Hj.
  - assert (j = 0%nat) as -> by lia. eexists; reflexivity.
  - destruct j as [| j]; [eexists; reflexivity |].
    simpl in *. destruct (Values.iteration self f) as [f1 | e]; [| discriminate].
    simpl in *. apply (IH j f1 H). lia.
Qed.

(** Temperatures along the iterations. *)
Lemma iterer_temperature (self : Values.algo) (k : nat) (f fk : Values.frame) :
  iterer self k f = Ok fk ->
  temperature fk = temperature f * _facteur_refroidissement self ^ k.
Proof.
  revert f. induction k as [| k IH]; intros f H.
  - injection H as <-. simpl. lra.
  - simpl in H. apply bind_Ok in H as (f1 & H1 & H).
    apply IH in H. apply iteration_cases in H1
      as (_ & _ & _ & _ & _ & _ & _ & _ & _ & _ & HT & _).
    rewrite H, HT. simpl. lra.
Qed.

(** What the loop computes: the frame after a number of iterations it
    chooses, the first one that cools below the minimum or else the last
    one allowed. *)
Lemma boucle_iterer (self : Values.algo) (n : nat) (f ff : Values.frame) :
  Values.boucle self n f = Ok ff ->
  exists K, (K <= n)%nat
    /\ iterer self K f = Ok ff
    /\ (forall j fj, (1 <= j < K)%nat -> iterer self j f = Ok fj ->
          ~ temperature fj < _temperature_minimale self)
    /\ ((K < n)%nat ->
          (1 <= K)%nat /\ temperature ff < _temperature_minimale self).
Proof.
  revert f. induction n as [| n IH]; intros f H.
  - injection H as <-. exists 0%nat.
    split; [lia |]. split; [reflexivity |]. split; intros; lia.
  - simpl in H. apply bind_Ok in H as (f1 & H1 & H).
    destruct (Rlt_dec (temperature f1) (_temperature_minimale self)) as [Hlt | Hge].
    + injection H as <-. exists 1%nat. split; [lia |]. split.
      * simpl. rewrite H1. reflexivity.
      * split; [intros; lia | intros _; split; [lia | exact Hlt]].
    + apply IH in H as (K & HK & Hit & Hmid & Hstop).
      exists (S K). split; [lia |]. split; [simpl; rewrite H1; exact Hit |]. split.
      * intros j fj Hj Hfj. destruct j as [| j]; [lia |].
        simpl in Hfj. rewrite H1 in Hfj. simpl in Hfj.
        destruct j as [| j].
        -- injection Hfj as <-. exact Hge.
        -- apply (Hmid (S j) fj); [lia | exact Hfj].
      * intros HK'. assert (HK2 : (K < n)%nat) by lia.
        destruct (Hstop HK2) as [_ Hlt]. split; [lia | exact Hlt].
Qed.

(** The parts of a call that reaches the annealing. *)
Lemma recuit_simule_Ok (self self' : Values.algo) (g g' : Random)
    (d : ManagedDevice) (ds : list ManagedDevice) (pc sp sc bc stp : R)
    (ans : Values.answer) :
  Values.recuit_simule self g (d :: ds) (Some pc) (Some sp) (Some sc)
    (Some bc) (Some stp) = Ok (ans, self', g') ->
  exists f0 ff,
    Values.preparer self g (d :: ds) pc sp sc bc stp = Ok (self', f0)
    /\ Values.boucle self' (Z.to_nat (_nombre_iterations self')) f0 = Ok ff
    /\ ans = (meilleure_solution ff, meilleure_objectif ff,
              total_power (meilleure_solution ff))
    /\ g' = generator ff.
Proof.
  unfold Values.recuit_simule. intros H.
  apply bind_Ok in H as ([s f0] & Hp & H).
  apply bind_Ok in H as (ff & Hb & H).
  injection H as <- <- <-. exists f0, ff. auto.
Qed.

Lemma preparer_Ok (self self' : Values.algo) (g : Random)
    (devices : list ManagedDevice) (pc sp sc bc stp : R) (f0 : Values.frame) :
  Values.preparer self g devices pc sp sc bc stp = Ok (self', f0) ->
  denominator bc sc stp <> 0
  /\ best_sound self' f0
  /\ solution_actuelle f0 = equipement_of <$> devices
  /\ meilleure_solution f0 = equipement_of <$> devices
  /\ temperature f0 = _temperature_initiale self
  /\ generator f0 = g
  /\ _facteur_refroidissement self' = _facteur_refroidissement self
  /\ _temperature_minimale self' = _temperature_minimale self
  /\ _nombre_iterations self' = _nombre_iterations self
  /\ (forall sol, Values.calculer_objectif self' sol
        = Ok (spec_objective bc sc stp pc
                (total_power (equipement_of <$> devices)) (total_power sol))).
Proof.
  intros H. destruct (Req_dec_T (denominator bc sc stp) 0) as [Hz | Hnz].
  - rewrite preparer_zero in H by exact Hz. discriminate.
  - rewrite preparer_value in H by exact Hnz. injection H as <- <-.
    set (self' := set_puissance_initiale _ _).
    assert (Hscore : forall sol, Values.calculer_objectif self' sol
              = Ok (spec_objective bc sc stp pc
                      (total_power (equipement_of <$> devices)) (total_power sol))).
    { intros sol. apply (calculer_objectif_value self' sol _ pc sp);
        try reflexivity. exact Hnz. }
    split; [exact Hnz |]. split.
    { split; simpl; [apply Hscore |]. eexists. split; [apply Hscore | lra]. }
    repeat split; try reflexivity. exact Hscore.
Qed.

Lemma usable_nonempty (sol : Values.solution) :
  Values.usable sol <> [] <-> exists i e, sol !! i = Some e /\ is_usable e = true.
Proof.
  split.
  - intros H. destruct (Values.usable sol) as [| i us] eqn:Hus; [contradiction |].
    assert (Hi : i ∈ Values.usable sol) by (rewrite Hus; left).
    apply elem_of_usable in Hi. exists i. exact Hi.
  - intros (i & e & He & Hu) Hnil.
    assert (Hi : i ∈ Values.usable sol) by (apply elem_of_usable; eauto).
    rewrite Hnil in Hi. inversion Hi.
Qed.

Lemma usable_toggle (sol : Values.solution) (i : nat) :
  Values.usable sol <> [] -> Values.usable (alter toggle i sol) <> [].
Proof.
  rewrite !usable_nonempty. intros (j & e & He & Hu).
  destruct (decide (i = j)) as [-> | Hne].
  - exists j, (toggle e). rewrite list_lookup_alter_eq, He. auto.
  - exists j, e. rewrite list_lookup_alter_ne by exact Hne. auto.
Qed.

Lemma iteration_usable (self : Values.algo) (f f' : Values.frame) :
  Values.iteration self f = Ok f' ->
  Values.usable (solution_actuelle f) <> [] ->
  Values.usable (solution_actuelle f') <> [].
Proof.
  intros H Hus. apply iteration_cases in H
    as (oa & v & g1 & ov & _ & Hperm & _ & _ & _ & _ & _ & Hcase).
  apply permuter_equipement_Ok in Hperm as (i & e & _ & _ & -> & _).
  destruct Hcase as [(_ & -> & _) | (_ & _ & _ & _ & _ & [(_ & ->) | (_ & ->)])];
    auto using usable_toggle.
Qed.

(** Every iteration divides by a positive temperature: the first by the
    initial one, a later one by a temperature that the test against the
    positive minimum has let through. *)
Lemma boucle_returns (self : Values.algo) (n : nat) (f : Values.frame) :
  (forall sol, returns (Values.calculer_objectif self sol)) ->
  Values.usable (solution_actuelle f) <> [] ->
  0 < temperature f ->
  0 < _temperature_minimale self ->
  returns (Values.boucle self n f).
Proof.
  intros Hobj Hus HT Hmin. revert f Hus HT.
  induction n as [| n IH]; intros f Hus HT; [eexists; reflexivity |].
  simpl. destruct (iteration_returns self f Hobj Hus) as [f1 H1]; [lra |].
  rewrite H1. simpl.
  destruct (Rlt_dec (temperature f1) (_temperature_minimale self)) as [| Hge];
    [eexists; reflexivity |].
  apply IH; [eapply iteration_usable; eassumption | lra].
Qed.

(** A call with a usable device, a non-zero divisor of the weights, and a
    positive initial temperature and minimum temperature returns. *)
Lemma recuit_simule_returns (self : Values.algo) (g : Random)
    (devices : list ManagedDevice) (pc sp sc bc stp : option R) :
  (exists i d, devices !! i = Some d /\ dev_is_usable d = true) ->
  (forall b s t, bc = Some b -> sc = Some s -> stp = Some t ->
     denominator b s t <> 0) ->
  0 < _temperature_initiale self ->
  0 < _temperature_minimale self ->
  returns (Values.recuit_simule self g devices pc sp sc bc stp).
Proof.
  intros (i & d & Hd & Hu) Hden HT Hmin. unfold Values.recuit_simule.
  destruct devices as [| d0 ds]; [eexists; reflexivity |].
  destruct pc as [pc |], sp as [sp |], sc as [sc |], bc as [bc |],
    stp as [stp |]; try (eexists; reflexivity).
  specialize (Hden bc sc stp eq_refl eq_refl eq_refl).
  destruct (Values.preparer self g (d0 :: ds) pc sp sc bc stp)
    as [[self' f0] | e] eqn:Hp;
    [| rewrite preparer_value in Hp by exact Hden; discriminate].
  apply preparer_Ok in Hp
    as (_ & _ & Hcur & _ & HT0 & _ & _ & Hmin' & _ & Hscore).
  simpl.
  destruct (boucle_returns self' (Z.to_nat (_nombre_iterations self')) f0)
    as [ff ->]; [| | | | eexists; reflexivity].
  - intros sol. eexists. apply Hscore.
  - rewrite Hcur. apply usable_nonempty. exists i, (equipement_of d).
    rewrite list_lookup_fmap, Hd. auto.
  - rewrite HT0. exact HT.
  - rewrite Hmin'. exact Hmin.
Qed.

Lemma iterer_add (self : Values.algo) (j m : nat) (f : Values.frame) :
  iterer self (j + m) f = iterer self j f ≫= iterer self m.
Proof.
  revert f. induction j as [| j IH]; intros f; [reflexivity |].
  simpl. destruct (Values.iteration self f) as [f1 | e]; simpl;
    [apply IH | reflexivity].
Qed.

Lemma iterer_best_sound (self : Values.algo) (k : nat) (f fk : Values.frame) :
  best_sound self f -> iterer self k f = Ok fk ->
  best_sound self fk /\ meilleure_objectif fk <= meilleure_objectif f.
Proof.
  revert f. induction k as [| k IH]; intros f Hs H.
  - injection H as <-. split; [exact Hs | lra].
  - simpl in H. apply bind_Ok in H as (f1 & H1 & H).
    destruct (iteration_best_sound self f f1 Hs H1) as (Hs1 & Hle & _).
    destruct (IH f1 Hs1 H) as [Hsk Hlek]. split; [exact Hsk | lra].
Qed.

Lemma iterer_voisin (self : Values.algo) (k : nat) (f fk : Values.frame) :
  best_sound self f -> iterer self (S k) f = Ok fk ->
  exists v ov, voisin fk = Some v
               /\ Values.calculer_objectif self v = Ok ov
               /\ meilleure_objectif fk <= ov.
Proof.
  intros Hs H. rewrite iterer_snoc in H. apply bind_Ok in H as (f1 & H1 & H).
  destruct (iterer_best_sound self k f f1 Hs H1) as [Hs1 _].
  destruct (iteration_best_sound self f1 fk Hs1 H) as (_ & _ & Hv). exact Hv.
Qed.

Lemma iterer_monotone (self : Values.algo) (j k : nat) (f fj fk : Values.frame) :
  best_sound self f -> (j <= k)%nat ->
  iterer self j f = Ok fj -> iterer self k f = Ok fk ->
  meilleure_objectif fk <= meilleure_objectif fj.
Proof.
  intros Hs Hjk Hj Hk. replace k with (j + (k - j))%nat in Hk by lia.
  rewrite iterer_add, Hj in Hk. simpl in Hk.
  destruct (iterer_best_sound self j f fj Hs Hj) as [Hsj _].
  destruct (iterer_best_sound self (k - j) fj fk Hsj Hk) as [_ Hle]. exact Hle.
Qed.

Lemma sample_call_returns :
  returns (Values.recuit_simule sample_solver sample_random
             [device_A; device_B] (Some (-1200)) (Some 1200) (Some 10)
             (Some 15) (Some 13)).
Proof.
  apply recuit_simule_returns.
  - exists 0%nat, device_A. split; reflexivity.
  - intros b s t [= <-] [= <-] [= <-]. unfold denominator. lra.
  - simpl. lra.
  - simpl. lra.
Qed.

(** ** The cooling schedule *)

(** C3.  In a call that reaches the annealing with a cooling factor in
    (0, 1) and a positive initial temperature, the loop runs a number [K]
    of iterations that is at most [max_iteration_number]; each iteration
    multiplies the temperature by the cooling factor, which lowers it; no
    iteration before the last one leaves the temperature below the
    minimum; and if [K] is less than [max_iteration_number], at least one
    iteration ran and the last one left the temperature below the
    minimum. *)
Theorem C3_cooling_schedule (self self' : Values.algo) (g g' : Random)
    (d : ManagedDevice) (ds : list ManagedDevice) (pc sp sc bc stp : R)
    (ans : Values.answer) :
  0 < _facteur_refroidissement self < 1 ->
  0 < _temperature_initiale self ->
  Values.recuit_simule self g (d :: ds) (Some pc) (Some sp) (Some sc)
    (Some bc) (Some stp) = Ok (ans, self', g') ->
  exists f0 K fK,
    Values.preparer self g (d :: ds) pc sp sc bc stp = Ok (self', f0)
    /\ temperature f0 = _temperature_initiale self
    /\ (K <= Z.to_nat (_nombre_iterations self))%nat
    /\ iterer self' K f0 = Ok fK
    /\ ans = (meilleure_solution fK, meilleure_objectif fK,
              total_power (meilleure_solution fK))
    /\ (forall i, (i < K)%nat ->
          exists fi fi', iterer self' i f0 = Ok fi
            /\ iterer self' (S i) f0 = Ok fi'
            /\ temperature fi' = temperature fi * _facteur_refroidissement self
            /\ temperature fi' < temperature fi)
    /\ (forall j fj, (1 <= j < K)%nat -> iterer self' j f0 = Ok fj ->
          _temperature_minimale self <= temperature fj)
    /\ ((K < Z.to_nat (_nombre_iterations self))%nat ->
          (1 <= K)%nat /\ temperature fK < _temperature_minimale self).
Proof.
  intros Hc HT H.
  apply recuit_simule_Ok in H as (f0 & ff & Hp & Hb & -> & _).
  pose proof (preparer_Ok _ _ _ _ _ _ _ _ _ _ Hp)
    as (_ & _ & _ & _ & HT0 & _ & Hc' & Hmin & Hn & _).
  apply boucle_iterer in Hb as (K & HK & Hit & Hmid & Hstop).
  rewrite Hn in HK, Hstop. rewrite Hmin in Hmid, Hstop.
  exists f0, K, ff. repeat (split; [first [assumption | reflexivity] |]).
  split; [| split].
  - intros i Hi.
    destruct (iterer_prefix self' i K f0 ff Hit) as [fi Hfi]; [lia |].
    destruct (iterer_prefix self' (S i) K f0 ff Hit) as [fi' Hfi']; [lia |].
    exists fi, fi'. split; [exact Hfi |]. split; [exact Hfi' |].
    pose proof (iterer_temperature _ _ _ _ Hfi) as Ei.
    pose proof (iterer_temperature _ _ _ _ Hfi') as Ei'.
    rewrite Hc' in Ei, Ei'. simpl in Ei'.
    assert (Hpos : 0 < temperature fi).
    { rewrite Ei, HT0. apply Rmult_lt_0_compat; [exact HT |].
      apply pow_lt. lra. }
    split; [rewrite Ei', Ei; lra |]. rewrite Ei', <- Rmult_assoc, (Rmult_comm _ (_facteur_refroidissement self)), Rmult_assoc, <- Ei. nra.
  - intros j fj Hj Hfj. specialize (Hmid j fj Hj Hfj). lra.
  - exact Hstop.
Qed.

Lemma C3_cooling_schedule_witness :
  exists ans self' g' f0 K fK,
    Values.recuit_simule sample_solver sample_random [device_A; device_B]
      (Some (-1200)) (Some 1200) (Some 10) (Some 15) (Some 13)
    = Ok (ans, self', g')
    /\ (K <= 1000)%nat
    /\ iterer self' K f0 = Ok fK
    /\ temperature f0 = 1000.
Proof.
  destruct sample_call_returns as [[[ans self'] g'] H].
  assert (Hc : 0 < _facteur_refroidissement (@sample_solver (list Equipement)) < 1)
    by (simpl; lra).
  assert (HT : 0 < _temperature_initiale (@sample_solver (list Equipement)))
    by (simpl; lra).
  destruct (C3_cooling_schedule _ _ _ _ _ _ _ _ _ _ _ _ Hc HT H)
    as (f0 & K & fK & _ & HT0 & HK & Hit & _).
  exists ans, self', g', f0, K, fK. auto.
Defined.

(** ** The best solution *)

(** C4.  In a call that reaches the annealing and returns, the loop has
    run a number [K] of iterations that the code fixes: [K] is at most
    [max_iteration_number], no iteration before the [K]-th left the
    temperature below the minimum, and [K] is less than
    [max_iteration_number] only if the [K]-th did; the frame after these
    [K] iterations is the frame the loop ends with, and the call returns
    its best solution and best score.  The returned best score is the
    score of the returned best solution; it is at most the score of the
    initial solution, at most the score of the neighbour each of the [K]
    iterations proposed and of the current solution each of them left; and
    the stored best score never grows from one iteration to a later
    one. *)
Theorem C4_best_is_minimum (self self' : Values.algo) (g g' : Random)
    (d : ManagedDevice) (ds : list ManagedDevice) (pc sp sc bc stp : R)
    (best : Values.solution) (best_objective power : R) :
  Values.recuit_simule self g (d :: ds) (Some pc) (Some sp) (Some sc)
    (Some bc) (Some stp) = Ok ((best, best_objective, power), self', g') ->
  exists f0 K fK,
    Values.preparer self g (d :: ds) pc sp sc bc stp = Ok (self', f0)
    /\ Values.boucle self' (Z.to_nat (_nombre_iterations self)) f0 = Ok fK
    /\ (K <= Z.to_nat (_nombre_iterations self))%nat
    /\ iterer self' K f0 = Ok fK
    /\ (forall j fj, (1 <= j < K)%nat -> iterer self' j f0 = Ok fj ->
          _temperature_minimale self <= temperature fj)
    /\ ((K < Z.to_nat (_nombre_iterations self))%nat ->
          (1 <= K)%nat /\ temperature fK < _temperature_minimale self)
    /\ meilleure_solution fK = best
    /\ meilleure_objectif fK = best_objective
    /\ Values.calculer_objectif self' best = Ok best_objective
    /\ Values.calculer_objectif self' (equipement_of <$> (d :: ds))
       = Ok (meilleure_objectif f0)
    /\ best_objective <= meilleure_objectif f0
    /\ (forall k, (k <= K)%nat ->
          exists fk oc, iterer self' k f0 = Ok fk
            /\ Values.calculer_objectif self' (solution_actuelle fk) = Ok oc
            /\ best_objective <= oc
            /\ best_objective <= meilleure_objectif fk)
    /\ (forall k, (1 <= k <= K)%nat ->
          exists fk v ov, iterer self' k f0 = Ok fk
            /\ voisin fk = Some v
            /\ Values.calculer_objectif self' v = Ok ov
            /\ best_objective <= ov)
    /\ (forall j k fj fk, (j <= k <= K)%nat ->
          iterer self' j f0 = Ok fj -> iterer self' k f0 = Ok fk ->
          meilleure_objectif fk <= meilleure_objectif fj).
Proof.
  intros H. apply recuit_simule_Ok in H as (f0 & ff & Hp & Hb & [= -> -> ->] & _).
  pose proof (preparer_Ok _ _ _ _ _ _ _ _ _ _ Hp)
    as (_ & Hs0 & _ & Hbest & _ & _ & _ & Hmin & Hn & _).
  rewrite Hn in Hb.
  pose proof (boucle_iterer _ _ _ _ Hb) as (K & HK & Hit & Hmid & Hstop).
  rewrite Hmin in Hmid, Hstop.
  destruct (iterer_best_sound _ _ _ _ Hs0 Hit) as [HsK HleK].
  exists f0, K, ff. split; [exact Hp |]. split; [exact Hb |].
  split; [exact HK |]. split; [exact Hit |].
  split; [intros j fj Hj Hfj; specialize (Hmid j fj Hj Hfj); lra |].
  split; [exact Hstop |].
  split; [reflexivity |]. split; [reflexivity |].
  split; [exact (proj1 HsK) |].
  split; [rewrite <- Hbest; exact (proj1 Hs0) |].
  split; [exact HleK |]. split; [| split].
  - intros k Hk. destruct (iterer_prefix self' k K f0 ff Hit Hk) as [fk Hfk].
    destruct (iterer_best_sound _ _ _ _ Hs0 Hfk) as [(_ & oc & Hoc & Hle) _].
    pose proof (iterer_monotone self' k K f0 fk ff Hs0 Hk Hfk Hit).
    exists fk, oc. repeat split; try assumption; lra.
  - intros k [Hk1 Hk]. destruct (iterer_prefix self' k K f0 ff Hit Hk) as [fk Hfk].
    destruct k as [| k]; [lia |].
    destruct (iterer_voisin self' k f0 fk Hs0 Hfk) as (v & ov & Hv & Hov & Hle).
    pose proof (iterer_monotone self' (S k) K f0 fk ff Hs0 Hk Hfk Hit).
    exists fk, v, ov. repeat split; try assumption; lra.
  - intros j k fj fk [Hjk _] Hj Hk.
    exact (iterer_monotone self' j k f0 fj fk Hs0 Hjk Hj Hk).
Qed.

Lemma C4_best_is_minimum_witness :
  exists best best_objective power self' g' f0 fK,
    Values.recuit_simule sample_solver sample_random [device_A; device_B]
      (Some (-1200)) (Some 1200) (Some 10) (Some 15) (Some 13)
    = Ok ((best, best_objective, power), self', g')
    /\ Values.boucle self' 1000 f0 = Ok fK
    /\ meilleure_solution fK = best
    /\ Values.calculer_objectif self' best = Ok best_objective.
Proof.
  destruct sample_call_returns as [[[[[best o] p] self'] g'] H].
  destruct (C4_best_is_minimum _ _ _ _ _ _ _ _ _ _ _ _ _ _ H)
    as (f0 & K & fK & _ & Hb & _ & _ & _ & _ & HfK & _ & Hbest & _).
  exists best, o, p, self', g', f0, fK. auto.
Defined.

(** ** Devices the solver may not toggle *)

Lemma same_fixed_input (devices : list ManagedDevice) (sol : Values.solution) :
  same_fixed (equipement_of <$> devices) sol -> fixed_states_kept devices sol.
Proof.
  intros H. split.
  - apply Forall2_length in H. rewrite length_fmap in H. congruence.
  - intros i dev Hd Hu.
    assert (He : (equipement_of <$> devices) !! i = Some (equipement_of dev))
      by (rewrite list_lookup_fmap, Hd; reflexivity).
    destruct (Forall2_lookup_l _ _ _ _ _ H He) as (e & Hsol & Hn & _ & Hus & Hst).
    exists e. simpl in *. repeat split; try assumption; [congruence | auto].
Qed.

Lemma iteration_same_fixed (self : Values.algo) (f f' : Values.frame)
    (base : Values.solution) :
  Values.iteration self f = Ok f' ->
  same_fixed base (solution_actuelle f) ->
  same_fixed base (meilleure_solution f) ->
  same_fixed base (solution_actuelle f')
  /\ same_fixed base (meilleure_solution f')
  /\ exists v, voisin f' = Some v /\ same_fixed base v.
Proof.
  intros H Hc Hb. apply iteration_cases in H
    as (oa & v & g1 & ov & _ & Hperm & _ & _ & Hv & _ & _ & Hcase).
  apply permuter_equipement_Ok in Hperm as (i & e & He & Hu & Hveq & _).
  assert (Hbv : same_fixed base v).
  { rewrite Hveq. eapply same_fixed_trans; [exact Hc |].
    eapply same_fixed_toggle; eassumption. }
  destruct Hcase as [(_ & -> & _ & ob & _ & [(_ & -> & _) | (_ & -> & _)])
                    | (_ & _ & _ & -> & _ & [(_ & ->) | (_ & ->)])];
    repeat split; try assumption; exists v; split; assumption.
Qed.

Lemma iterer_same_fixed (self : Values.algo) (k : nat) (f fk : Values.frame)
    (base : Values.solution) :
  iterer self k f = Ok fk ->
  same_fixed base (solution_actuelle f) ->
  same_fixed base (meilleure_solution f) ->
  (forall v, voisin f = Some v -> same_fixed base v) ->
  same_fixed base (solution_actuelle fk)
  /\ same_fixed base (meilleure_solution fk)
  /\ (forall v, voisin fk = Some v -> same_fixed base v).
Proof.
  revert f. induction k as [| k IH]; intros f H Hc Hb Hv.
  - injection H as <-. auto.
  - simpl in H. apply bind_Ok in H as (f1 & H1 & H).
    destruct (iteration_same_fixed self f f1 base H1 Hc Hb)
      as (Hc1 & Hb1 & v1 & Hv1 & Hbv1).
    apply (IH f1 H Hc1 Hb1). intros v Hvv. congruence.
Qed.

Lemma preparer_voisin (self self' : Values.algo) (g : Random)
    (devices : list ManagedDevice) (pc sp sc bc stp : R) (f0 : Values.frame) :
  Values.preparer self g devices pc sp sc bc stp = Ok (self', f0) ->
  voisin f0 = None.
Proof.
  unfold Values.preparer, Values.generer_solution_initiale. intros H.
  apply bind_Ok in H as (o & _ & [= _ <-]). reflexivity.
Qed.

(** C5.  In a call that reaches the annealing, every solution of the run
    has, for every device of the input that is not usable, a dictionary
    with the state the device had on entry: the current solution and the
    best solution after any number of executions of the loop body, the
    neighbour each execution proposed, the best solution the loop ends
    with whatever its bound, and the best solution the call returns. *)
Theorem C5_fixed_devices_keep_state (self self' : Values.algo) (g : Random)
    (d : ManagedDevice) (ds : list ManagedDevice) (pc sp sc bc stp : R)
    (f0 : Values.frame) :
  Values.preparer self g (d :: ds) pc sp sc bc stp = Ok (self', f0) ->
  (forall k fk, iterer self' k f0 = Ok fk ->
     fixed_states_kept (d :: ds) (solution_actuelle fk)
     /\ fixed_states_kept (d :: ds) (meilleure_solution fk)
     /\ (forall v, voisin fk = Some v -> fixed_states_kept (d :: ds) v))
  /\ (forall n ff, Values.boucle self' n f0 = Ok ff ->
        (exists K, (K <= n)%nat /\ iterer self' K f0 = Ok ff)
        /\ fixed_states_kept (d :: ds) (meilleure_solution ff))
  /\ (forall best best_objective power g',
        Values.recuit_simule self g (d :: ds) (Some pc) (Some sp) (Some sc)
          (Some bc) (Some stp) = Ok ((best, best_objective, power), self', g') ->
        fixed_states_kept (d :: ds) best).
Proof.
  intros Hp.
  pose proof (preparer_Ok _ _ _ _ _ _ _ _ _ _ Hp)
    as (_ & _ & Hcur & Hbest & _).
  assert (Hall : forall k fk, iterer self' k f0 = Ok fk ->
            fixed_states_kept (d :: ds) (solution_actuelle fk)
            /\ fixed_states_kept (d :: ds) (meilleure_solution fk)
            /\ (forall v, voisin fk = Some v -> fixed_states_kept (d :: ds) v)).
  { intros k fk Hfk.
    destruct (iterer_same_fixed self' k f0 fk (equipement_of <$> (d :: ds)) Hfk)
      as (Hc & Hb & Hv).
    - rewrite Hcur. apply same_fixed_refl.
    - rewrite Hbest. apply same_fixed_refl.
    - intros v Hv. rewrite (preparer_voisin _ _ _ _ _ _ _ _ _ _ Hp) in Hv.
      discriminate.
    - split; [apply same_fixed_input; exact Hc |].
      split; [apply same_fixed_input; exact Hb |].
      intros v Hvv. apply same_fixed_input. exact (Hv v Hvv). }
  assert (Hloop : forall n ff, Values.boucle self' n f0 = Ok ff ->
            (exists K, (K <= n)%nat /\ iterer self' K f0 = Ok ff)
            /\ fixed_states_kept (d :: ds) (meilleure_solution ff)).
  { intros n ff Hb. apply boucle_iterer in Hb as (K & HK & Hit & _).
    split; [exists K; auto |]. exact (proj1 (proj2 (Hall K ff Hit))). }
  split; [exact Hall |]. split; [exact Hloop |].
  intros best o p g' H.
  apply recuit_simule_Ok in H as (f0' & ff & Hp' & Hb & [= -> _ _] & _).
  rewrite Hp in Hp'. injection Hp' as <-.
  exact (proj2 (Hloop _ ff Hb)).
Qed.

Lemma C5_fixed_devices_keep_state_witness :
  exists best best_objective power self' g',
    Values.recuit_simule sample_solver sample_random [device_F; device_A]
      (Some (-1200)) (Some 1200) (Some 10) (Some 15) (Some 13)
    = Ok ((best, best_objective, power), self', g')
    /\ fixed_states_kept [device_F; device_A] best.
Proof.
  destruct (recuit_simule_returns sample_solver sample_random
              [device_F; device_A] (Some (-1200)) (Some 1200) (Some 10)
              (Some 15) (Some 13)) as [[[[[best o] p] self'] g'] H].
  - exists 1%nat, device_A. split; reflexivity.
  - intros b s t [= <-] [= <-] [= <-]. unfold denominator. lra.
  - simpl. lra.
  - simpl. lra.
  - exists best, o, p, self', g'. split; [exact H |].
    destruct (recuit_simule_Ok _ _ _ _ _ _ _ _ _ _ _ _ H)
      as (f0 & ff & Hp & _).
    exact (proj2 (proj2 (C5_fixed_devices_keep_state _ _ _ _ _ _ _ _ _ _ _ Hp))
             best o p g' H).
Defined.

(** ** The entry point *)

Lemma missing_input_dec {D : Type} (devices : list D)
    (pc sp sc bc stp : option R) :
  {missing_input devices pc sp sc bc stp}
  + {exists d ds a b c e f, devices = d :: ds /\ pc = Some a /\ sp = Some b
       /\ sc = Some c /\ bc = Some e /\ stp = Some f}.
Proof.
  unfold missing_input.
  destruct devices as [| d ds]; [left; auto |].
  destruct pc as [a |]; [| left; auto 6].
  destruct sp as [b |]; [| left; auto 6].
  destruct sc as [c |]; [| left; auto 6].
  destruct bc as [e |]; [| left; auto 6].
  destruct stp as [f |]; [| left; auto 7].
  right. exists d, ds, a, b, c, e, f. auto 7.
Qed.

Lemma recuit_simule_missing (self : Values.algo) (g : Random)
    (devices : list ManagedDevice) (pc sp sc bc stp : option R) :
  missing_input devices pc sp sc bc stp ->
  Values.recuit_simule self g devices pc sp sc bc stp
  = Ok (Values.sentinel, self, g).
Proof.
  unfold missing_input, Values.recuit_simule. intros H.
  destruct devices as [| d ds]; [reflexivity |].
  destruct pc, sp, sc, bc, stp; try reflexivity.
  destruct H as [H | [H | [H | [H | [H | H]]]]]; discriminate.
Qed.

(** A loop that must run at least once over a solution without a usable
    dictionary ends in the [IndexError] of [random.choice]. *)
Lemma boucle_no_usable (self : Values.algo) (n : nat) (f : Values.frame) :
  (forall sol, returns (Values.calculer_objectif self sol)) ->
  Values.usable (solution_actuelle f) = [] ->
  Values.boucle self (S n) f = Raise IndexError.
Proof.
  intros Hobj Hus. simpl. unfold Values.iteration.
  destruct (Hobj (solution_actuelle f)) as [oa ->]. simpl.
  rewrite permuter_equipement_empty by exact Hus. reflexivity.
Qed.

Lemma recuit_simule_no_usable (self : Values.algo) (g : Random)
    (d : ManagedDevice) (ds : list ManagedDevice) (pc sp sc bc stp : R) :
  Values.usable (equipement_of <$> (d :: ds)) = [] ->
  denominator bc sc stp <> 0 ->
  (0 < _nombre_iterations self)%Z ->
  Values.recuit_simule self g (d :: ds) (Some pc) (Some sp) (Some sc)
    (Some bc) (Some stp) = Raise IndexError.
Proof.
  intros Hus Hd Hn. unfold Values.recuit_simule.
  destruct (Values.preparer self g (d :: ds) pc sp sc bc stp)
    as [[self' f0] | e] eqn:Hp;
    [| rewrite preparer_value in Hp by exact Hd; discriminate].
  apply preparer_Ok in Hp as (_ & _ & Hcur & _ & _ & _ & _ & _ & Hn' & Hscore).
  simpl. rewrite Hn'.
  destruct (Z.to_nat (_nombre_iterations self)) as [| n] eqn:En; [lia |].
  rewrite boucle_no_usable; [reflexivity | | rewrite Hcur; exact Hus].
  intros sol. eexists. apply Hscore.
Qed.

(** C6, as the specification states it, fails: with one device that is not
    usable and the five numbers given, the call raises [IndexError]; it
    returns neither the sentinel nor a best solution. *)
Lemma C6_counterexample :
  ~ missing_input [device_F] (Some (-1200)) (Some 1200) (Some 10) (Some 15)
      (Some 13)
  /\ Values.recuit_simule sample_solver sample_random [device_F]
       (Some (-1200)) (Some 1200) (Some 10) (Some 15) (Some 13)
     = Raise IndexError.
Proof.
  split.
  - unfold missing_input. intros [H | [H | [H | [H | [H | H]]]]]; discriminate.
  - apply recuit_simule_no_usable.
    + reflexivity.
    + unfold denominator. lra.
    + reflexivity.
Qed.

Lemma boucle_best (self : Values.algo) (n : nat) (f ff : Values.frame)
    (base : Values.solution) :
  Values.boucle self n f = Ok ff ->
  best_sound self f ->
  same_fixed base (solution_actuelle f) ->
  same_fixed base (meilleure_solution f) ->
  Values.calculer_objectif self (meilleure_solution ff)
  = Ok (meilleure_objectif ff)
  /\ length (meilleure_solution ff) = length base.
Proof.
  intros Hb Hs Hc Hm. apply boucle_iterer in Hb as (K & _ & Hit & _).
  destruct (iterer_best_sound _ _ _ _ Hs Hit) as [[Hbest _] _].
  split; [exact Hbest |].
  revert f Hit Hs Hc Hm. induction K as [| K IH]; intros f Hit Hs Hc Hm.
  - injection Hit as <-. symmetry. eapply Forall2_length. exact Hm.
  - simpl in Hit. apply bind_Ok in Hit as (f1 & H1 & Hit).
    destruct (iteration_same_fixed self f f1 base H1 Hc Hm) as (Hc1 & Hm1 & _).
    destruct (iteration_best_sound self f f1 Hs H1) as (Hs1 & _).
    exact (IH f1 Hit Hs1 Hc1 Hm1).
Qed.

(** A call that reaches the annealing and returns. *)
Lemma recuit_simule_run (self self' : Values.algo) (g g' : Random)
    (devices : list ManagedDevice) (pc sp sc bc stp : option R)
    (ans : Values.answer) :
  ~ missing_input devices pc sp sc bc stp ->
  Values.recuit_simule self g devices pc sp sc bc stp = Ok (ans, self', g') ->
  exists a b c e t f0 ff,
    pc = Some a /\ sp = Some b /\ sc = Some c /\ bc = Some e
    /\ stp = Some t
    /\ Values.preparer self g devices a b c e t = Ok (self', f0)
    /\ Values.boucle self' (Z.to_nat (_nombre_iterations self)) f0 = Ok ff
    /\ ans = (meilleure_solution ff, meilleure_objectif ff,
              total_power (meilleure_solution ff))
    /\ meilleure_solution ff <> []
    /\ Values.calculer_objectif self' (meilleure_solution ff)
       = Ok (meilleure_objectif ff).
Proof.
  intros Hg H.
  destruct (missing_input_dec devices pc sp sc bc stp)
    as [Hm | (d & ds & a & b & c & e & t & -> & -> & -> & -> & -> & ->)];
    [contradiction |].
  apply recuit_simule_Ok in H as (f0 & ff & Hp & Hb & -> & _).
  pose proof (preparer_Ok _ _ _ _ _ _ _ _ _ _ Hp)
    as (_ & Hs0 & Hcur & Hbest & _ & _ & _ & _ & Hn & _).
  rewrite Hn in Hb.
  destruct (boucle_best self' _ f0 ff (equipement_of <$> (d :: ds)) Hb Hs0)
    as [Hscore Hlen].
  { rewrite Hcur. apply same_fixed_refl. }
  { rewrite Hbest. apply same_fixed_refl. }
  exists a, b, c, e, t, f0, ff.
  repeat (split; [first [assumption | reflexivity] |]).
  split; [| exact Hscore].
  intros Hnil. rewrite Hnil in Hlen. discriminate.
Qed.

Lemma sentinel_missing (self self' : Values.algo) (g g' : Random)
    (devices : list ManagedDevice) (pc sp sc bc stp : option R) :
  Values.recuit_simule self g devices pc sp sc bc stp
  = Ok (Values.sentinel, self', g') ->
  missing_input devices pc sp sc bc stp.
Proof.
  intros H.
  destruct (missing_input_dec devices pc sp sc bc stp) as [Hm | Hn];
    [exact Hm | exfalso].
  assert (Hg : ~ missing_input devices pc sp sc bc stp).
  { destruct Hn as (d & ds & a & b & c & e & t & -> & -> & -> & -> & -> & ->).
    intros [Hm | [Hm | [Hm | [Hm | [Hm | Hm]]]]]; discriminate. }
  destruct (recuit_simule_run _ _ _ _ _ _ _ _ _ _ _ Hg H)
    as (a & b & c & e & t & f0 & ff & _ & _ & _ & _ & _ & _ & _ & Hans & Hne & _).
  injection Hans as Hans _ _. congruence.
Qed.

(** C6, as the code has it.  [recuit_simule] returns the sentinel
    [([], -1, -1)], leaving the solver and the generator as they were,
    when the list of devices is empty or one of the five numbers is
    [None], and in no other case.  In every other case it runs the
    annealing, and a call that returns gives the best solution of the
    final frame, which is not empty, the score of that solution and its
    total power.  Such a call returns whenever a device is usable, the
    divisor of the weights is not zero, and the initial temperature and
    the minimum temperature are positive: every iteration then divides by
    a positive temperature, the initial one or one that the test against
    the minimum has let through, whatever the cooling factor is. *)
Theorem C6_sentinel_or_best (self : Values.algo) (g : Random)
    (devices : list ManagedDevice) (pc sp sc bc stp : option R) :
  (missing_input devices pc sp sc bc stp ->
   Values.recuit_simule self g devices pc sp sc bc stp
   = Ok (Values.sentinel, self, g))
  /\ (forall self' g',
        Values.recuit_simule self g devices pc sp sc bc stp
        = Ok (Values.sentinel, self', g') ->
        missing_input devices pc sp sc bc stp)
  /\ (~ missing_input devices pc sp sc bc stp ->
      forall ans self' g',
        Values.recuit_simule self g devices pc sp sc bc stp
        = Ok (ans, self', g') ->
        exists a b c e t f0 ff,
          pc = Some a /\ sp = Some b /\ sc = Some c /\ bc = Some e
          /\ stp = Some t
          /\ Values.preparer self g devices a b c e t = Ok (self', f0)
          /\ Values.boucle self' (Z.to_nat (_nombre_iterations self)) f0 = Ok ff
          /\ ans = (meilleure_solution ff, meilleure_objectif ff,
                    total_power (meilleure_solution ff))
          /\ meilleure_solution ff <> []
          /\ Values.calculer_objectif self' (meilleure_solution ff)
             = Ok (meilleure_objectif ff))
  /\ (~ missing_input devices pc sp sc bc stp ->
      (exists i d, devices !! i = Some d /\ dev_is_usable d = true) ->
      (forall e c t, bc = Some e -> sc = Some c -> stp = Some t ->
         denominator e c t <> 0) ->
      0 < _temperature_initiale self ->
      0 < _temperature_minimale self ->
      returns (Values.recuit_simule self g devices pc sp sc bc stp)).
Proof.
  split; [apply recuit_simule_missing |]. split; [| split].
  - intros self' g'. apply sentinel_missing.
  - intros Hg ans self' g'. apply recuit_simule_run. exact Hg.
  - intros _. apply recuit_simule_returns.
Qed.

Lemma C6_sentinel_or_best_witness :
  Values.recuit_simule sample_solver sample_random [device_A; device_B]
    (Some (-1200)) None (Some 10) (Some 15) (Some 13)
  = Ok (Values.sentinel, sample_solver, sample_random)
  /\ returns
       (Values.recuit_simule sample_solver sample_random [device_A; device_B]
          (Some (-1200)) (Some 1200) (Some 10) (Some 15) (Some 13)).
Proof.
  split.
  - apply (C6_sentinel_or_best sample_solver sample_random [device_A; device_B]).
    right. right. left. reflexivity.
  - apply (C6_sentinel_or_best sample_solver sample_random [device_A; device_B]).
    + unfold missing_input. intros [H | [H | [H | [H | [H | H]]]]]; discriminate.
    + exists 0%nat, device_A. split; reflexivity.
    + intros e c t [= <-] [= <-] [= <-]. unfold denominator. lra.
    + simpl. lra.
    + simpl. lra.
Defined.

(** C9.  With a positive buy cost, a non-negative sell cost and a tax of at
    most 100 percent, [calculer_objectif] returns a score that is not
    negative, so never the -1 of the sentinel; and a call of
    [recuit_simule] with such tariffs that returns gives the sentinel
    exactly when an input is missing, and a best score that is not
    negative otherwise. *)
Theorem C9_objective_nonneg (bc sc stp : R) :
  0 < bc -> 0 <= sc -> stp <= 100 ->
  (forall (self : Values.algo) (sol : Values.solution),
     context_set self ->
     _cout_achat self = bc -> _cout_revente self = sc ->
     _taxe_revente self = stp ->
     returns_with (Values.calculer_objectif self sol)
       (fun v => 0 <= v /\ v <> -1))
  /\ (forall (self self' : Values.algo) (g g' : Random)
        (devices : list ManagedDevice) (pc sp : option R)
        (best : Values.solution) (best_objective power : R),
        Values.recuit_simule self g devices pc sp (Some sc) (Some bc)
          (Some stp) = Ok ((best, best_objective, power), self', g') ->
        (best_objective = -1 <->
         missing_input devices pc sp (Some sc) (Some bc) (Some stp))
        /\ (~ missing_input devices pc sp (Some sc) (Some bc) (Some stp) ->
            0 <= best_objective)).
Proof.
  intros Hb Hs Ht. split.
  - intros self sol ([i Hi] & [n Hn] & [p Hp]) <- <- <-.
    rewrite (calculer_objectif_value self sol i n p Hi Hn Hp).
    + simpl. pose proof (spec_objective_nonneg (_cout_achat self)
        (_cout_revente self) (_taxe_revente self) n i (total_power sol) Hb Hs Ht).
      split; lra.
    + pose proof (denominator_pos _ _ _ Hb Hs Ht). lra.
  - intros self self' g g' devices pc sp best o power H.
    assert (Hrun : ~ missing_input devices pc sp (Some sc) (Some bc) (Some stp)
                   -> 0 <= o).
    { intros Hg.
      destruct (recuit_simule_run _ _ _ _ _ _ _ _ _ _ _ Hg H)
        as (a & b & c & e & t & f0 & ff & _ & _ & [= <-] & [= <-] & [= <-]
            & Hp & _ & [= _ -> _] & _ & Hscore).
      apply preparer_Ok in Hp as (_ & _ & _ & _ & _ & _ & _ & _ & _ & Hval).
      rewrite Hval in Hscore. injection Hscore as <-.
      apply spec_objective_nonneg; assumption. }
    split; [| exact Hrun]. split.
    + intros Ho.
      destruct (missing_input_dec devices pc sp (Some sc) (Some bc) (Some stp))
        as [Hm | Hn]; [exact Hm | exfalso].
      assert (Hg : ~ missing_input devices pc sp (Some sc) (Some bc) (Some stp)).
      { destruct Hn as (d & ds & a & b & c & e & t & -> & -> & -> & _).
        intros [Hm | [Hm | [Hm | [Hm | [Hm | Hm]]]]]; discriminate. }
      specialize (Hrun Hg). lra.
    + intros Hm. rewrite (recuit_simule_missing _ _ _ _ _ _ _ _ Hm) in H.
      injection H as _ <- _ _ _. reflexivity.
Qed.

Lemma C9_objective_nonneg_witness :
  returns_with
    (Values.calculer_objectif sample_self (equipement_of <$> [device_A; device_B]))
    (fun v => 0 <= v /\ v <> -1).
Proof.
  assert (Hb : 0 < 15) by lra.
  assert (Hs : 0 <= 10) by lra.
  assert (Ht : 13 <= 100) by lra.
  apply (proj1 (C9_objective_nonneg 15 10 13 Hb Hs Ht) sample_self _
           sample_self_context); reflexivity.
Defined.

(** ** The store only grows

    Every function of the store semantics, whether it returns or raises,
    leaves the objects it found in the store as they were: what it
    allocates goes after them, and what it assigns to is an object it
    allocated. *)

Lemma prefix_insert_ge (h h2 : list Store.object) (a : nat) (o : Store.object) :
  h `prefix_of` h2 -> (length h <= a)%nat -> h `prefix_of` <[a:=o]> h2.
Proof.
  intros [k ->] Ha. rewrite insert_app_r_alt by exact Ha.
  apply prefix_app_r. reflexivity.
Qed.

Lemma prefix_snoc (h : list Store.object) (o : Store.object) :
  h `prefix_of` h ++ [o].
Proof. apply prefix_app_r. reflexivity. Qed.

Lemma memo_get_fresh (base : nat) (m : Store.memo) (a a' : nat) :
  memo_fresh base m -> Store.memo_get m a = Some a' -> (base <= a')%nat.
Proof.
  induction 1 as [| [k v] m Hv _ IH]; simpl; [discriminate |].
  destruct (Nat.eqb k a); [intros [= <-]; exact Hv | exact IH].
Qed.

Lemma deepcopy_items_frame (base : nat) (items : list nat) :
  forall (h : list Store.object) (m : Store.memo),
    (base <= length h)%nat -> memo_fresh base m ->
    h `prefix_of` Store.final (Store.deepcopy_items m items h)
    /\ forall items' m' h',
         Store.deepcopy_items m items h = Store.Returned (items', m') h' ->
         Forall (fun a => (base <= a)%nat) items'.
Proof.
  induction items as [| a rest IH]; intros h m Hb Hm.
  - simpl. split; [reflexivity |]. intros items' m' h' [= <- _ _]. constructor.
  - simpl. destruct (Store.memo_get m a) as [a' |] eqn:Hget.
    + destruct (IH h m Hb Hm) as [Hp Hf].
      destruct (Store.deepcopy_items m rest h) as [[rest' m1] h1 | e h1];
        simpl in *; (split; [exact Hp |]); [| discriminate].
      intros items' m' h' [= <- _ _].
      constructor; [eapply memo_get_fresh; eassumption |].
      eapply Hf. reflexivity.
    + destruct (Store.read_dict h a) as [e | e]; simpl;
        [| split; [reflexivity | discriminate]].
      destruct (IH (h ++ [Store.Dict e]) ((a, length h) :: m)) as [Hp Hf].
      * rewrite length_app. simpl. lia.
      * constructor; [simpl; exact Hb | exact Hm].
      * destruct (Store.deepcopy_items _ rest _) as [[rest' m1] h1 | e' h1];
          simpl in *;
          (split; [etransitivity; [apply prefix_snoc | exact Hp] |]);
          [| discriminate].
        intros items' m' h' [= <- _ _].
        constructor; [exact Hb | eapply Hf; reflexivity].
Qed.

Lemma deepcopy_frame (h : list Store.object) (sol : nat) :
  h `prefix_of` Store.final (Store.deepcopy sol h)
  /\ forall c h',
       Store.deepcopy sol h = Store.Returned c h' ->
       c = length h
       /\ exists items', h' !! c = Some (Store.PyList items')
                         /\ Forall (fun a => (length h <= a)%nat) items'.
Proof.
  unfold Store.deepcopy.
  destruct (Store.read_list h sol) as [items | e]; simpl;
    [| split; [reflexivity | discriminate]].
  destruct (deepcopy_items_frame (length h) items
              (h ++ [Store.PyList []]) [(sol, length h)]) as [Hp Hf].
  - rewrite length_app. simpl. lia.
  - constructor; [simpl; lia | constructor].
  - assert (Hp' : h `prefix_of`
                    Store.final (Store.deepcopy_items [(sol, length h)] items
                                   (h ++ [Store.PyList []])))
      by (etransitivity; [apply prefix_snoc | exact Hp]).
    destruct (Store.deepcopy_items _ items _) as [[items' m1] h1 | e h1];
      simpl in *; [| split; [exact Hp' | discriminate]].
    split; [apply prefix_insert_ge; [exact Hp' | lia] |].
    intros c h' [= <- <-]. split; [reflexivity |].
    exists items'. split; [| eapply Hf; reflexivity].
    apply list_lookup_insert_eq. apply prefix_length in Hp.
    rewrite length_app in Hp. simpl in Hp. lia.
Qed.

Lemma filter_usable_Forall (P : nat -> Prop) (h : list Store.object)
    (items us : list nat) :
  Store.filter_usable h items = Ok us -> Forall P items -> Forall P us.
Proof.
  revert us. induction items as [| a rest IH]; intros us H Hf.
  - injection H as <-. constructor.
  - simpl in H. apply bind_Ok in H as (e & _ & H).
    apply bind_Ok in H as (us' & Hus & [= <-]).
    inversion Hf as [| ? ? Ha Hrest]; subst.
    destruct (is_usable e); [constructor; [exact Ha |] |]; apply IH; auto.
Qed.

Lemma permuter_equipement_frame (h : list Store.object) (sol : nat)
    (g : Random) :
  h `prefix_of` Store.final (Store.permuter_equipement sol g h)
  /\ forall v g' h',
       Store.permuter_equipement sol g h = Store.Returned (v, g') h' ->
       v = length h.
Proof.
  unfold Store.permuter_equipement.
  destruct (deepcopy_frame h sol) as [Hp Hret].
  destruct (Store.deepcopy sol h) as [c h1 | e h1]; simpl in *;
    [| split; [exact Hp | discriminate]].
  destruct (Hret c h1 eq_refl) as (-> & items' & Hl & Hf).
  unfold Store.usable, Store.alloc, Store.read_list. rewrite Hl. simpl.
  destruct (Store.filter_usable h1 items') as [us | e] eqn:Hus; simpl;
    [| split; [exact Hp | discriminate]].
  rewrite (list_lookup_middle h1 [] (Store.PyList us) (length h1) eq_refl).
  simpl.
  assert (Hp' : h `prefix_of` h1 ++ [Store.PyList us])
    by (apply prefix_app_r; exact Hp).
  destruct (random_choice us g) as [[eqt g1] | e] eqn:Hc; simpl;
    [| split; [exact Hp' | discriminate]].
  destruct (Store.read_dict _ eqt) as [e | e]; simpl;
    [| split; [exact Hp' | discriminate]].
  split; [| intros v g' h' [= <- _ _]; reflexivity].
  apply prefix_insert_ge; [exact Hp' |].
  apply random_choice_Ok in Hc as [Hin _].
  pose proof (filter_usable_Forall _ _ _ _ Hus Hf) as Hfus.
  rewrite Forall_forall in Hfus. specialize (Hfus _ Hin). lia.
Qed.

Lemma iteration_frame (self : Store.algo) (f : Store.frame)
    (h : list Store.object) :
  h `prefix_of` Store.final (Store.iteration self f h)
  /\ forall f' h',
       Store.iteration self f h = Store.Returned f' h' ->
       forall base,
         (base <= length h)%nat ->
         (base <= solution_actuelle f)%nat ->
         (base <= meilleure_solution f)%nat ->
         (base <= solution_actuelle f')%nat
         /\ (base <= meilleure_solution f')%nat.
Proof.
  unfold Store.iteration.
  destruct (Store.calculer_objectif self h (solution_actuelle f)) as [oa | e];
    simpl; [| split; [reflexivity | discriminate]].
  destruct (permuter_equipement_frame h (solution_actuelle f) (generator f))
    as [Hp Hv].
  destruct (Store.permuter_equipement _ _ h) as [[v g1] h1 | e h1]; simpl in *;
    [| split; [exact Hp | discriminate]].
  rewrite (Hv v g1 h1 eq_refl).
  destruct (Store.calculer_objectif self h1 (length h)) as [ov | e]; simpl;
    [| split; [exact Hp | discriminate]].
  destruct (Rlt_dec ov oa).
  - destruct (Store.calculer_objectif self h1 (meilleure_solution f))
      as [ob | e]; simpl; [| split; [exact Hp | discriminate]].
    destruct (Rlt_dec ov ob); simpl; (split; [exact Hp |]);
      intros f' h' [= <- _] base Hb Hc Hm; simpl; lia.
  - destruct (truediv (oa - ov) (temperature f)) as [q | e]; simpl;
      [| split; [exact Hp | discriminate]].
    destruct (Rlt_dec _ _); simpl; (split; [exact Hp |]);
      intros f' h' [= <- _] base Hb Hc Hm; simpl; lia.
Qed.

Lemma boucle_frame (self : Store.algo) (n : nat) :
  forall (f : Store.frame) (h : list Store.object),
    h `prefix_of` Store.final (Store.boucle self n f h)
    /\ forall f' h',
         Store.boucle self n f h = Store.Returned f' h' ->
         forall base,
           (base <= length h)%nat ->
           (base <= solution_actuelle f)%nat ->
           (base <= meilleure_solution f)%nat ->
           (base <= meilleure_solution f')%nat.
Proof.
  induction n as [| n IH]; intros f h.
  - simpl. split; [reflexivity |]. intros f' h' [= <- _] base _ _ Hm. exact Hm.
  - simpl. destruct (iteration_frame self f h) as [Hp Hfresh].
    destruct (Store.iteration self f h) as [f1 h1 | e h1]; simpl in *;
      [| split; [exact Hp | discriminate]].
    specialize (Hfresh f1 h1 eq_refl).
    destruct (Rlt_dec _ _).
    + simpl. split; [exact Hp |].
      intros f' h' [= <- _] base Hb Hc Hm. exact (proj2 (Hfresh base Hb Hc Hm)).
    + destruct (IH f1 h1) as [Hp1 Hf1].
      split; [etransitivity; eassumption |].
      intros f' h' Hret base Hb Hc Hm.
      destruct (Hfresh base Hb Hc Hm) as [Hc1 Hm1].
      apply (Hf1 f' h' Hret base); [| exact Hc1 | exact Hm1].
      apply prefix_length in Hp. lia.
Qed.

Lemma build_frame (h0 : list Store.object) (equipements : nat)
    (devices : list nat) :
  (length h0 <= equipements)%nat ->
  forall h : list Store.object,
    h0 `prefix_of` h ->
    h0 `prefix_of` Store.final (Store.build equipements devices h).
Proof.
  intros Heq. induction devices as [| d rest IH]; intros h Hp; [exact Hp |].
  simpl. destruct (Store.read_device h d) as [dev | e]; simpl; [| exact Hp].
  destruct (Store.read_list _ equipements) as [items | e]; simpl;
    [| apply prefix_app_r; exact Hp].
  apply IH. apply prefix_insert_ge; [| exact Heq].
  apply prefix_app_r. exact Hp.
Qed.

Lemma generer_solution_initiale_frame (self : Store.algo) (sol : nat)
    (h : list Store.object) :
  h `prefix_of` Store.final (Store.generer_solution_initiale self sol h)
  /\ forall c s h',
       Store.generer_solution_initiale self sol h = Store.Returned (c, s) h' ->
       c = length h.
Proof.
  unfold Store.generer_solution_initiale.
  destruct (Store.consommation_equipements h sol) as [p | e]; simpl;
    [| split; [reflexivity | discriminate]].
  destruct (deepcopy_frame h sol) as [Hp Hret].
  destruct (Store.deepcopy sol h) as [c h1 | e h1]; simpl in *;
    (split; [exact Hp |]); [| discriminate].
  intros c' s h' [= <- _ _]. exact (proj1 (Hret c h1 eq_refl)).
Qed.

Lemma preparer_frame (self : Store.algo) (g : Random) (devices : list nat)
    (pc sp sc bc stp : R) (h : list Store.object) :
  h `prefix_of` Store.final (Store.preparer self g devices pc sp sc bc stp h)
  /\ forall s f h',
       Store.preparer self g devices pc sp sc bc stp h
       = Store.Returned (s, f) h' ->
       (length h <= solution_actuelle f)%nat
       /\ (length h <= meilleure_solution f)%nat.
Proof.
  unfold Store.preparer, Store.alloc. simpl.
  pose proof (build_frame h (length h) devices (le_n _) _
                (prefix_snoc h (Store.PyList []))) as Hb.
  destruct (Store.build (length h) devices _) as [[] h1 | e h1]; simpl in *;
    [| split; [exact Hb | discriminate]].
  destruct (generer_solution_initiale_frame
              (set_equipements (set_context self bc sc stp pc sp) (length h))
              (length h) h1) as [Hp Hc].
  destruct (Store.generer_solution_initiale _ _ h1) as [[c s1] h2 | e h2];
    simpl in *; [| split; [etransitivity; eassumption | discriminate]].
  rewrite (Hc c s1 h2 eq_refl).
  destruct (Store.calculer_objectif s1 h2 (length h1)) as [o | e]; simpl;
    (split; [etransitivity; eassumption |]); [| discriminate].
  intros s f h' [= _ <- _]. simpl. apply prefix_length in Hb. lia.
Qed.

Lemma recuit_simule_frame (self : Store.algo) (g : Random) (devices : nat)
    (pc sp sc bc stp : option R) (h : list Store.object) :
  h `prefix_of`
    Store.final (Store.recuit_simule self g devices pc sp sc bc stp h)
  /\ forall ans s g' h',
       Store.recuit_simule self g devices pc sp sc bc stp h
       = Store.Returned (ans, s, g') h' ->
       (length h <= fst (fst ans))%nat.
Proof.
  unfold Store.recuit_simule.
  destruct (Store.read_list h devices) as [items | e]; simpl;
    [| split; [reflexivity | discriminate]].
  assert (Hsent :
    h `prefix_of`
      Store.final (Store.obind (Store.alloc (Store.PyList []) h)
                     (fun vide h0 => Store.Returned (vide, -1, -1, self, g) h0))
    /\ forall ans s g' h',
         Store.obind (Store.alloc (Store.PyList []) h)
           (fun vide h0 => Store.Returned (vide, -1, -1, self, g) h0)
         = Store.Returned (ans, s, g') h' ->
         (length h <= fst (fst ans))%nat).
  { simpl. split; [apply prefix_snoc |].
    intros ans s g' h' [= <- _ _ _]. simpl. lia. }
  destruct items as [| d ds]; [exact Hsent |].
  destruct pc as [pc |]; [| exact Hsent].
  destruct sp as [sp |]; [| exact Hsent].
  destruct sc as [sc |]; [| exact Hsent].
  destruct bc as [bc |]; [| exact Hsent].
  destruct stp as [stp |]; [| exact Hsent].
  clear Hsent.
  destruct (preparer_frame self g (d :: ds) pc sp sc bc stp h) as [Hp Hfresh].
  destruct (Store.preparer self g (d :: ds) pc sp sc bc stp h)
    as [[s f] h1 | e h1]; simpl in *; [| split; [exact Hp | discriminate]].
  destruct (Hfresh s f h1 eq_refl) as [Hc Hm].
  destruct (boucle_frame s (Z.to_nat (_nombre_iterations s)) f h1) as [Hp1 Hb].
  assert (Hp2 : h `prefix_of`
                  Store.final (Store.boucle s (Z.to_nat (_nombre_iterations s))
                                 f h1)) by (etransitivity; eassumption).
  destruct (Store.boucle s _ f h1) as [ff h2 | e h2]; simpl in *;
    [| split; [exact Hp2 | discriminate]].
  destruct (Store.consommation_equipements h2 (meilleure_solution ff))
    as [p | e]; simpl; (split; [exact Hp2 |]); [| discriminate].
  intros ans s' g' h' [= <- _ _ _]. simpl.
  apply (Hb ff h2 eq_refl (length h)); [| exact Hc | exact Hm].
  apply prefix_length in Hp. exact Hp.
Qed.

(** ** The store semantics computes what the value semantics computes *)

Lemma read_dicts_Forall2 (h : list Store.object) (items : list nat)
    (eqts : list Equipement) :
  Forall2 (fun i e => h !! i = Some (Store.Dict e)) items eqts ->
  Store.read_dicts h items = Ok eqts.
Proof.
  induction 1 as [| a e items eqts Ha _ IH]; [reflexivity |].
  simpl. unfold Store.read_dict. rewrite Ha. simpl. rewrite IH. reflexivity.
Qed.

Lemma contents_sol_at (h : list Store.object) (a : nat)
    (eqts : list Equipement) :
  sol_at h a eqts -> Store.contents h a = Ok eqts.
Proof.
  intros (items & Ha & _ & Hf). unfold Store.contents, Store.read_list.
  rewrite Ha. simpl. apply read_dicts_Forall2. exact Hf.
Qed.

Lemma sol_at_prefix (h h' : list Store.object) (a : nat)
    (eqts : list Equipement) :
  sol_at h a eqts -> h `prefix_of` h' -> sol_at h' a eqts.
Proof.
  intros (items & Ha & Hnd & Hf) Hp. exists items.
  split; [eapply prefix_lookup_Some; eassumption |]. split; [exact Hnd |].
  eapply Forall2_impl; [exact Hf |]. simpl. intros i e Hi.
  eapply prefix_lookup_Some; eassumption.
Qed.

Lemma calculer_objectif_sim (ss : Store.algo) (sv : Values.algo)
    (h : list Store.object) (a : nat) (eqts : list Equipement) :
  numbers ss = numbers sv -> sol_at h a eqts ->
  Store.calculer_objectif ss h a = Values.calculer_objectif sv eqts.
Proof.
  intros Hn Hs. unfold Store.calculer_objectif, Store.consommation_equipements.
  rewrite (contents_sol_at _ _ _ Hs). simpl.
  unfold Values.calculer_objectif, Values.consommation_equipements.
  change (objectif (numbers ss) (total_power eqts)
          = objectif (numbers sv) (total_power eqts)).
  rewrite Hn. reflexivity.
Qed.

Lemma deepcopy_items_spec (items : list nat) (eqts : list Equipement) :
  forall (h : list Store.object) (m : Store.memo),
    Forall2 (fun i e => h !! i = Some (Store.Dict e)) items eqts ->
    NoDup items ->
    (forall a, a ∈ items -> Store.memo_get m a = None) ->
    exists m',
      Store.deepcopy_items m items h
      = Store.Returned (seq (length h) (length items), m')
          (h ++ (Store.Dict <$> eqts)).
Proof.
  revert eqts. induction items as [| a rest IH]; intros eqts h m Hf Hnd Hm.
  - inversion Hf; subst. exists m. simpl. rewrite app_nil_r. reflexivity.
  - inversion Hf as [| ? e ? es Ha Hrest]; subst.
    apply NoDup_cons in Hnd as [Hnotin Hnd].
    simpl. rewrite (Hm a) by left. unfold Store.read_dict. rewrite Ha. simpl.
    destruct (IH es (h ++ [Store.Dict e]) ((a, length h) :: m)) as [m' Hrec].
    + eapply Forall2_impl; [exact Hrest |]. simpl. intros i x Hi.
      eapply prefix_lookup_Some; [exact Hi | apply prefix_snoc].
    + exact Hnd.
    + intros b Hb. simpl. destruct (Nat.eqb_spec a b) as [-> | _];
        [contradiction | apply Hm; right; exact Hb].
    + exists m'. rewrite Hrec. simpl. rewrite length_app, Nat.add_1_r.
      rewrite <- app_assoc. reflexivity.
Qed.

Lemma deepcopy_spec (h : list Store.object) (a : nat) (eqts : list Equipement) :
  sol_at h a eqts ->
  Store.deepcopy a h = Store.Returned (length h) (with_copy h eqts).
Proof.
  intros (items & Ha & Hnd & Hf). unfold Store.deepcopy, Store.read_list.
  rewrite Ha. simpl.
  destruct (deepcopy_items_spec items eqts (h ++ [Store.PyList []])
              [(a, length h)]) as [m' Hrec].
  - eapply Forall2_impl; [exact Hf |]. simpl. intros i x Hi.
    eapply prefix_lookup_Some; [exact Hi | apply prefix_snoc].
  - exact Hnd.
  - intros b Hb. simpl. destruct (Nat.eqb_spec a b) as [-> | _]; [| reflexivity].
    destruct (proj1 (list_elem_of_lookup _ _) Hb) as [k Hk].
    destruct (Forall2_lookup_l _ _ _ _ _ Hf Hk) as (e & _ & Hbe). congruence.
  - rewrite Hrec. simpl. f_equal. unfold with_copy.
    rewrite <- app_assoc. simpl.
    rewrite insert_app_r_alt by lia. rewrite Nat.sub_diag. simpl.
    rewrite length_app, Nat.add_1_r.
    rewrite (Forall2_length _ _ _ Hf). reflexivity.
Qed.

Lemma with_copy_prefix (h : list Store.object) (eqts : list Equipement) :
  h `prefix_of` with_copy h eqts.
Proof. unfold with_copy. apply prefix_app_r. reflexivity. Qed.

Lemma with_copy_lookup (h : list Store.object) (eqts : list Equipement)
    (i : nat) :
  with_copy h eqts !! (S (length h) + i)%nat = Store.Dict <$> eqts !! i.
Proof.
  unfold with_copy. rewrite lookup_app_r by lia.
  replace (S (length h) + i - length h)%nat with (S i) by lia.
  simpl. apply list_lookup_fmap.
Qed.

Lemma with_copy_list (h : list Store.object) (eqts : list Equipement) :
  with_copy h eqts !! length h
  = Some (Store.PyList (seq (S (length h)) (length eqts))).
Proof. unfold with_copy. apply list_lookup_middle. reflexivity. Qed.

Lemma with_copy_sol_at (h : list Store.object) (eqts : list Equipement) :
  sol_at (with_copy h eqts) (length h) eqts.
Proof.
  exists (seq (S (length h)) (length eqts)). split; [| split].
  - apply with_copy_list.
  - apply NoDup_seq.
  - apply Forall2_same_length_lookup. split; [apply length_seq |].
    intros i a e Ha He. apply lookup_seq in Ha as [-> _].
    rewrite with_copy_lookup, He. reflexivity.
Qed.

Lemma usable_offset (g : nat -> nat) (es : list Equipement) :
  fst <$> filter (fun ie => is_usable (snd ie) = true)
            (imap (fun i e => (g i, e)) es)
  = g <$> Values.usable es.
Proof.
  unfold Values.usable. revert g. induction es as [| e es IH]; intros g;
    [reflexivity |].
  rewrite !imap_cons, !filter_cons.
  change (imap ((fun i e => (g i, e)) ∘ S) es)
    with (imap (fun i e => (g (S i), e)) es).
  change (imap (pair ∘ S) es) with (imap (fun i e => (S i, e)) es).
  pose proof (IH (fun i => g (S i))) as IHg. pose proof (IH S) as IHS.
  change (is_usable (snd (g 0%nat, e)) = true) with (is_usable e = true).
  change (is_usable (snd (0%nat, e)) = true) with (is_usable e = true).
  destruct (decide (is_usable e = true));
    rewrite ?fmap_cons, IHg, IHS, <- (list_fmap_compose S g); reflexivity.
Qed.

Lemma usable_cons (e : Equipement) (es : list Equipement) :
  Values.usable (e :: es)
  = (if is_usable e then [0%nat] else []) ++ (S <$> Values.usable es).
Proof.
  unfold Values.usable at 1. rewrite imap_cons, filter_cons.
  change (imap (pair ∘ S) es) with (imap (fun i e => (S i, e)) es).
  change (is_usable (snd (0%nat, e)) = true) with (is_usable e = true).
  pose proof (usable_offset S es) as H.
  destruct (decide (is_usable e = true)) as [Hu | Hu].
  - rewrite Hu, fmap_cons, H. reflexivity.
  - destruct (is_usable e); [contradiction |]. exact H.
Qed.

Lemma usable_alter_toggle (sol : list Equipement) (i : nat) :
  Values.usable (alter toggle i sol) = Values.usable sol.
Proof.
  revert i. induction sol as [| e sol IH]; intros [| i]; try reflexivity.
  - change (alter toggle 0%nat (e :: sol)) with (toggle e :: sol).
    rewrite !usable_cons. reflexivity.
  - change (alter toggle (S i) (e :: sol)) with (e :: alter toggle i sol).
    rewrite !usable_cons, IH. reflexivity.
Qed.

Lemma filter_usable_seq (h : list Store.object) (es : list Equipement) :
  forall base,
    (forall i e, es !! i = Some e ->
                 h !! (base + i)%nat = Some (Store.Dict e)) ->
    Store.filter_usable h (seq base (length es))
    = Ok ((fun i => (base + i)%nat) <$> Values.usable es).
Proof.
  induction es as [| e es IH]; intros base Hh; [reflexivity |].
  simpl. unfold Store.read_dict.
  pose proof (Hh 0%nat e eq_refl) as H0. rewrite Nat.add_0_r in H0.
  rewrite H0. simpl. rewrite (IH (S base)).
  - simpl. rewrite usable_cons, fmap_app, <- list_fmap_compose.
    assert (Hext : (fun i => (base + i)%nat) ∘ S <$> Values.usable es
                   = (fun i => S (base + i)) <$> Values.usable es).
    { apply list_fmap_ext. intros _ i _. simpl. lia. }
    rewrite Hext. destruct (is_usable e); simpl; rewrite ?Nat.add_0_r; reflexivity.
  - intros i x Hi. specialize (Hh (S i) x Hi).
    replace (S base + i)%nat with (base + S i)%nat by lia. exact Hh.
Qed.

Lemma random_choice_fmap {A B : Type} (f : A -> B) (seq : list A) (g : Random) :
  random_choice (f <$> seq) g
  = match random_choice seq g with
    | Ok (x, g') => Ok (f x, g')
    | Raise e => Raise e
    end.
Proof.
  unfold random_choice. rewrite length_fmap, list_lookup_fmap.
  destruct (seq !! _); reflexivity.
Qed.

Lemma alter_as_insert {A : Type} (f : A -> A) (l : list A) (i : nat) (x : A) :
  l !! i = Some x -> alter f i l = <[i:=f x]> l.
Proof.
  revert i. induction l as [| a l IH]; intros [| i] H; try discriminate.
  - injection H as ->. reflexivity.
  - simpl in *. f_equal. apply IH. exact H.
Qed.

Lemma with_copy_insert (h : list Store.object) (eqts : list Equipement)
    (i : nat) (e : Equipement) :
  eqts !! i = Some e ->
  <[(S (length h) + i)%nat := Store.Dict (toggle e)]> (with_copy h eqts)
  = with_copy h (alter toggle i eqts).
Proof.
  intros He. unfold with_copy. rewrite insert_app_r_alt by lia.
  replace (S (length h) + i - length h)%nat with (S i) by lia.
  rewrite length_alter, (alter_as_insert toggle eqts i e He), list_fmap_insert.
  reflexivity.
Qed.

Lemma with_neighbour_prefix (h : list Store.object) (eqts : list Equipement) :
  h `prefix_of` with_neighbour h eqts.
Proof.
  unfold with_neighbour. apply prefix_app_r. apply with_copy_prefix.
Qed.

Lemma with_neighbour_copy (h : list Store.object) (eqts : list Equipement) :
  with_copy h eqts `prefix_of` with_neighbour h eqts.
Proof. unfold with_neighbour. apply prefix_app_r. reflexivity. Qed.

Lemma with_neighbour_sol_at (h : list Store.object) (eqts : list Equipement) :
  sol_at (with_neighbour h eqts) (length h) eqts.
Proof.
  eapply sol_at_prefix; [apply with_copy_sol_at | apply with_neighbour_copy].
Qed.

Lemma with_copy_length (h : list Store.object) (eqts : list Equipement) :
  length (with_copy h eqts) = (S (length h) + length eqts)%nat.
Proof. unfold with_copy. rewrite length_app. simpl. rewrite length_fmap. lia. Qed.

Lemma with_neighbour_length (h : list Store.object) (eqts : list Equipement) :
  length (with_neighbour h eqts) = (length h + 2 + length eqts)%nat.
Proof.
  unfold with_neighbour. rewrite length_app, with_copy_length. simpl. lia.
Qed.

(** [permuter_equipement] on the store: the neighbour the value semantics
    computes, as a new list of new dictionaries after everything the store
    held, followed by the list [usable]; when [random.choice] raises, the
    copy and the list [usable] have been made. *)
Lemma permuter_equipement_sim (h : list Store.object) (a : nat)
    (eqts : list Equipement) (g : Random) :
  sol_at h a eqts ->
  Store.permuter_equipement a g h
  = match Values.permuter_equipement eqts g with
    | Ok (v, g') => Store.Returned (length h, g') (with_neighbour h v)
    | Raise e => Store.Raised e (with_neighbour h eqts)
    end.
Proof.
  intros Hs. unfold Store.permuter_equipement, Values.permuter_equipement.
  rewrite (deepcopy_spec h a eqts Hs). simpl.
  unfold Store.usable, Store.alloc, Store.read_list.
  rewrite with_copy_list. simpl.
  rewrite (filter_usable_seq (with_copy h eqts) eqts (S (length h))).
  2:{ intros i e He. rewrite with_copy_lookup, He. reflexivity. }
  simpl.
  rewrite (list_lookup_middle (with_copy h eqts) [] _
             (length (with_copy h eqts)) eq_refl).
  simpl. rewrite random_choice_fmap.
  destruct (random_choice (Values.usable eqts) g) as [[i g'] | e] eqn:Hc;
    [| reflexivity].
  simpl. apply random_choice_Ok in Hc as [Hi _].
  apply elem_of_usable in Hi as (e & He & _).
  pose proof (lookup_lt_Some _ _ _ He) as Hlt.
  change (S (length h + i)) with (S (length h) + i)%nat.
  unfold Store.read_dict.
  rewrite lookup_app_l by (rewrite with_copy_length; lia).
  rewrite with_copy_lookup, He. simpl.
  change (S (length h + i)) with (S (length h) + i)%nat.
  rewrite insert_app_l by (rewrite with_copy_length; lia).
  rewrite (with_copy_insert h eqts i e He).
  unfold with_neighbour. rewrite usable_alter_toggle. reflexivity.
Qed.

Lemma numbers_facteur (ss : Store.algo) (sv : Values.algo) :
  numbers ss = numbers sv ->
  _facteur_refroidissement ss = _facteur_refroidissement sv
  /\ _temperature_minimale ss = _temperature_minimale sv
  /\ _temperature_initiale ss = _temperature_initiale sv
  /\ _nombre_iterations ss = _nombre_iterations sv.
Proof.
  intros H.
  pose proof (f_equal _facteur_refroidissement H).
  pose proof (f_equal _temperature_minimale H).
  pose proof (f_equal _temperature_initiale H).
  pose proof (f_equal _nombre_iterations H). auto.
Qed.

Lemma iteration_sim (ss : Store.algo) (sv : Values.algo)
    (h : list Store.object) (fs : Store.frame) (fv : Values.frame) :
  numbers ss = numbers sv -> frame_at h fs fv ->
  match Values.iteration sv fv with
  | Ok fv' =>
      exists fs' h', Store.iteration ss fs h = Store.Returned fs' h'
                     /\ h `prefix_of` h' /\ frame_at h' fs' fv'
  | Raise e => exists h', Store.iteration ss fs h = Store.Raised e h'
  end.
Proof.
  intros Hn (Hcur & Hbest & Hbo & HT & _ & _ & Hg & _).
  destruct (numbers_facteur ss sv Hn) as (Hc & _).
  unfold Store.iteration, Values.iteration.
  rewrite (calculer_objectif_sim ss sv h _ _ Hn Hcur).
  destruct (Values.calculer_objectif sv (solution_actuelle fv)) as [oa | e];
    simpl; [| eexists; reflexivity].
  rewrite (permuter_equipement_sim h _ _ (generator fs) Hcur), Hg.
  destruct (Values.permuter_equipement (solution_actuelle fv) (generator fv))
    as [[v g1] | e]; simpl; [| eexists; reflexivity].
  pose proof (with_neighbour_sol_at h v) as Hv.
  pose proof (with_neighbour_prefix h v) as Hp.
  pose proof (sol_at_prefix _ _ _ _ Hcur Hp) as Hcur'.
  pose proof (sol_at_prefix _ _ _ _ Hbest Hp) as Hbest'.
  rewrite (calculer_objectif_sim ss sv _ _ _ Hn Hv).
  destruct (Values.calculer_objectif sv v) as [ov | e]; simpl;
    [| eexists; reflexivity].
  rewrite HT, Hc, Hbo.
  destruct (Rlt_dec ov oa).
  - rewrite (calculer_objectif_sim ss sv _ _ _ Hn Hbest').
    destruct (Values.calculer_objectif sv (meilleure_solution fv)) as [ob | e];
      simpl; [| eexists; reflexivity].
    destruct (Rlt_dec ov ob); simpl; eexists; eexists;
      (split; [reflexivity |]); (split; [exact Hp |]);
      repeat split; simpl; assumption.
  - destruct (truediv (oa - ov) (temperature fv)) as [q | e]; simpl;
      [| eexists; reflexivity].
    destruct (Rlt_dec _ _); simpl; eexists; eexists;
      (split; [reflexivity |]); (split; [exact Hp |]);
      repeat split; simpl; assumption.
Qed.

Lemma frame_at_temperature (h : list Store.object) (fs : Store.frame)
    (fv : Values.frame) :
  frame_at h fs fv -> temperature fs = temperature fv.
Proof. intros (_ & _ & _ & HT & _). exact HT. Qed.

Lemma boucle_sim (ss : Store.algo) (sv : Values.algo) (n : nat) :
  numbers ss = numbers sv ->
  forall (h : list Store.object) (fs : Store.frame) (fv : Values.frame),
    frame_at h fs fv ->
    match Values.boucle sv n fv with
    | Ok fv' =>
        exists fs' h', Store.boucle ss n fs h = Store.Returned fs' h'
                       /\ h `prefix_of` h' /\ frame_at h' fs' fv'
    | Raise e => exists h', Store.boucle ss n fs h = Store.Raised e h'
    end.
Proof.
  intros Hn. destruct (numbers_facteur ss sv Hn) as (_ & Hmin & _).
  induction n as [| n IH]; intros h fs fv Hf.
  - simpl. exists fs, h. split; [reflexivity | split; [reflexivity | exact Hf]].
  - simpl. pose proof (iteration_sim ss sv h fs fv Hn Hf) as H1.
    destruct (Values.iteration sv fv) as [fv1 | e]; simpl.
    + destruct H1 as (fs1 & h1 & -> & Hp1 & Hf1). simpl.
      rewrite (frame_at_temperature _ _ _ Hf1), Hmin.
      destruct (Rlt_dec _ _).
      * exists fs1, h1. auto.
      * specialize (IH h1 fs1 fv1 Hf1).
        destruct (Values.boucle sv n fv1) as [fv' | e]; [| exact IH].
        destruct IH as (fs' & h' & Hb & Hp & Hf').
        exists fs', h'. split; [exact Hb |]. split; [| exact Hf'].
        etransitivity; eassumption.
    + destruct H1 as [h' ->]. eexists. reflexivity.
Qed.

Lemma with_copy_snoc (h : list Store.object) (done : list Equipement)
    (e : Equipement) :
  <[length h := Store.PyList (seq (S (length h)) (length done)
                                ++ [length (with_copy h done)])]>
    (with_copy h done ++ [Store.Dict e])
  = with_copy h (done ++ [e]).
Proof.
  rewrite with_copy_length. unfold with_copy.
  rewrite <- app_assoc, insert_app_r_alt, Nat.sub_diag by lia. simpl.
  rewrite fmap_app, length_app, seq_app. reflexivity.
Qed.

(** The loop of lines 102-110 lays the working list out as a copy of the
    devices' contents. *)
Lemma build_spec (h : list Store.object) (devices : list nat)
    (devs : list ManagedDevice) :
  Forall2 (fun d dev => h !! d = Some (Store.Device dev)) devices devs ->
  forall done,
    Store.build (length h) devices (with_copy h done)
    = Store.Returned tt (with_copy h (done ++ (equipement_of <$> devs))).
Proof.
  induction 1 as [| d dev ds devs Hd _ IH]; intros done.
  - simpl. rewrite app_nil_r. reflexivity.
  - simpl. unfold Store.read_device.
    rewrite (prefix_lookup_Some _ _ _ _ Hd (with_copy_prefix h done)). simpl.
    unfold Store.read_list.
    assert (Hl : (with_copy h done ++ [Store.Dict (equipement_of dev)])
                   !! length h
                 = Some (Store.PyList (seq (S (length h)) (length done)))).
    { rewrite lookup_app_l by (rewrite with_copy_length; lia).
      apply with_copy_list. }
    rewrite Hl. simpl. rewrite with_copy_snoc, IH, <- app_assoc. reflexivity.
Qed.

Lemma numbers_preparer (ss : Store.algo) (sv : Values.algo)
    (bc sc stp pc sp p : R) (a : nat) (eqts : list Equipement) :
  numbers ss = numbers sv ->
  numbers (set_puissance_initiale
             (set_equipements (set_context ss bc sc stp pc sp) a) p)
  = numbers (set_puissance_initiale
               (set_equipements (set_context sv bc sc stp pc sp) eqts) p).
Proof.
  intros H. destruct (numbers_facteur ss sv H) as (Hc & Hm & Hi & Hn).
  unfold numbers. simpl. rewrite Hc, Hm, Hi, Hn. reflexivity.
Qed.

Lemma preparer_sim (ss : Store.algo) (sv : Values.algo) (g : Random)
    (h : list Store.object) (devices : list nat) (devs : list ManagedDevice)
    (pc sp sc bc stp : R) :
  numbers ss = numbers sv ->
  Forall2 (fun d dev => h !! d = Some (Store.Device dev)) devices devs ->
  match Values.preparer sv g devs pc sp sc bc stp with
  | Ok (sv', fv) =>
      exists ss' fs h',
        Store.preparer ss g devices pc sp sc bc stp h
        = Store.Returned (ss', fs) h'
        /\ h `prefix_of` h' /\ frame_at h' fs fv
        /\ numbers ss' = numbers sv'
  | Raise e =>
      exists h', Store.preparer ss g devices pc sp sc bc stp h
                 = Store.Raised e h'
  end.
Proof.
  intros Hn Hd. unfold Store.preparer, Values.preparer, Store.alloc,
    Values.generer_solution_initiale, Store.generer_solution_initiale.
  set (eqts := equipement_of <$> devs). simpl.
  change (h ++ [Store.PyList []]) with (with_copy h []).
  rewrite (build_spec h devices devs Hd []). simpl. fold eqts.
  pose proof (with_copy_sol_at h eqts) as Hs1.
  unfold Store.consommation_equipements.
  rewrite (contents_sol_at _ _ _ Hs1). simpl.
  rewrite (deepcopy_spec _ _ _ Hs1). simpl.
  set (h1 := with_copy h eqts). set (h2 := with_copy h1 eqts).
  pose proof (with_copy_sol_at h1 eqts) as Hs2. fold h2 in Hs2.
  unfold Values.consommation_equipements.
  pose proof (numbers_preparer ss sv bc sc stp pc sp (total_power eqts)
                (length h) eqts Hn) as Hn'.
  rewrite (calculer_objectif_sim _ _ _ _ _ Hn' Hs2).
  destruct (Values.calculer_objectif _ eqts) as [o | e]; simpl;
    [| eexists; reflexivity].
  eexists. eexists. eexists. split; [reflexivity |].
  split; [etransitivity; apply with_copy_prefix |].
  split; [| exact Hn'].
  destruct (numbers_facteur ss sv Hn) as (_ & _ & Hi & _).
  repeat split; simpl; auto.
Qed.

(** The store semantics refines the value semantics: called on a store
    whose list of devices holds device objects, [Store.recuit_simule]
    raises what [Values.recuit_simule] raises on the contents of those
    objects, and otherwise returns the same two numbers and generator, and
    the address of a solution whose contents are the solution
    [Values.recuit_simule] returns. *)
Theorem recuit_simule_refines (ss : Store.algo) (sv : Values.algo)
    (g : Random) (h : list Store.object) (devices : nat) (ds : list nat)
    (devs : list ManagedDevice) (pc sp sc bc stp : option R) :
  numbers ss = numbers sv ->
  h !! devices = Some (Store.PyList ds) ->
  Forall2 (fun d dev => h !! d = Some (Store.Device dev)) ds devs ->
  match Values.recuit_simule sv g devs pc sp sc bc stp with
  | Ok ((sol, o, p), sv', g') =>
      exists a ss' h',
        Store.recuit_simule ss g devices pc sp sc bc stp h
        = Store.Returned ((a, o, p), ss', g') h'
        /\ h `prefix_of` h' /\ sol_at h' a sol
        /\ numbers ss' = numbers sv'
  | Raise e =>
      exists h', Store.recuit_simule ss g devices pc sp sc bc stp h
                 = Store.Raised e h'
  end.
Proof.
  intros Hn Hl Hd. unfold Store.recuit_simule, Values.recuit_simule,
    Store.read_list. rewrite Hl. simpl.
  assert (Hsent :
    exists a ss' h',
      Store.obind (Store.alloc (Store.PyList []) h)
        (fun vide h0 => Store.Returned (vide, -1, -1, ss, g) h0)
      = Store.Returned ((a, -1, -1), ss', g) h'
      /\ h `prefix_of` h' /\ sol_at h' a [] /\ numbers ss' = numbers sv).
  { exists (length h), ss, (with_copy h []). split; [reflexivity |].
    split; [apply with_copy_prefix |]. split; [apply with_copy_sol_at | exact Hn]. }
  destruct Hd as [| d dev ds devs Hd0 Hd]; [exact Hsent |].
  destruct pc as [pc |]; [| exact Hsent].
  destruct sp as [sp |]; [| exact Hsent].
  destruct sc as [sc |]; [| exact Hsent].
  destruct bc as [bc |]; [| exact Hsent].
  destruct stp as [stp |]; [| exact Hsent].
  clear Hsent.
  assert (Hd' : Forall2 (fun d dev => h !! d = Some (Store.Device dev))
                  (d :: ds) (dev :: devs)) by (constructor; assumption).
  pose proof (preparer_sim ss sv g h (d :: ds) (dev :: devs) pc sp sc bc stp
                Hn Hd') as Hprep.
  destruct (Values.preparer sv g (dev :: devs) pc sp sc bc stp)
    as [[sv' fv] | e]; simpl;
    [| destruct Hprep as [h' ->]; eexists; reflexivity].
  destruct Hprep as (ss' & fs & h1 & -> & Hp1 & Hf1 & Hn'). simpl.
  destruct (numbers_facteur ss' sv' Hn') as (_ & _ & _ & Hit). rewrite Hit.
  pose proof (boucle_sim ss' sv' (Z.to_nat (_nombre_iterations sv')) Hn'
                h1 fs fv Hf1) as Hb.
  destruct (Values.boucle sv' _ fv) as [fv' | e]; simpl;
    [| destruct Hb as [h' ->]; eexists; reflexivity].
  destruct Hb as (fs' & h2 & -> & Hp2 & Hf2). simpl.
  destruct Hf2 as (_ & Hbest & Hbo & _ & _ & _ & Hg & _).
  unfold Store.consommation_equipements.
  rewrite (contents_sol_at _ _ _ Hbest). simpl.
  exists (meilleure_solution fs'), ss', h2. rewrite Hbo, Hg.
  split; [reflexivity |]. split; [etransitivity; eassumption |].
  split; [exact Hbest | exact Hn'].
Qed.

(** ** Neighbours, in the store *)

(** C8, as the code has it.  On a solution without a usable dictionary,
    [permuter_equipement] ends in the [IndexError] that [random.choice]
    raises on an empty list.  Otherwise it returns a list that did not
    exist before, made of dictionaries that did not exist before; nothing
    the store held is changed, the solution it was given included; and the
    contents of the new list are those of the given solution except at one
    position, which held a usable dictionary and now holds it with the
    state negated. *)
Theorem C8_neighbour (h : list Store.object) (a : nat)
    (eqts : list Equipement) (g : Random) :
  sol_at h a eqts ->
  (Values.usable eqts = [] ->
   exists h', Store.permuter_equipement a g h = Store.Raised IndexError h'
              /\ h `prefix_of` h')
  /\ (Values.usable eqts <> [] ->
      exists i e h',
        eqts !! i = Some e /\ is_usable e = true
        /\ Store.permuter_equipement a g h
           = Store.Returned (length h, avancer g) h'
        /\ h `prefix_of` h'
        /\ sol_at h' a eqts
        /\ sol_at h' (length h) (alter toggle i eqts)
        /\ (exists items,
              h' !! length h = Some (Store.PyList items)
              /\ Forall (fun b => (length h < b)%nat) items)
        /\ alter toggle i eqts !! i = Some (toggle e)
        /\ (forall j, j <> i -> alter toggle i eqts !! j = eqts !! j)).
Proof.
  intros Hs. rewrite (permuter_equipement_sim h a eqts g Hs). split.
  - intros Hu. rewrite permuter_equipement_empty by exact Hu.
    exists (with_neighbour h eqts).
    split; [reflexivity | apply with_neighbour_prefix].
  - intros Hu.
    destruct (permuter_equipement_returns eqts g Hu) as (i & Hi & ->).
    apply elem_of_usable in Hi as (e & He & Hue).
    exists i, e, (with_neighbour h (alter toggle i eqts)).
    repeat (split; [first [assumption | reflexivity] |]).
    split; [apply with_neighbour_prefix |].
    split; [eapply sol_at_prefix; [exact Hs | apply with_neighbour_prefix] |].
    split; [apply with_neighbour_sol_at |]. split; [| split].
    + exists (seq (S (length h)) (length (alter toggle i eqts))).
      split; [eapply prefix_lookup_Some;
                [apply with_copy_list | apply with_neighbour_copy] |].
      apply Forall_forall. intros b Hb. apply elem_of_seq in Hb. lia.
    + rewrite list_lookup_alter_eq, He. reflexivity.
    + intros j Hj. apply list_lookup_alter_ne. congruence.
Qed.

Lemma sample_store_solution :
  sol_at sample_store 3 (equipement_of <$> [device_A; device_B]).
Proof.
  exists [4; 5]%nat. split; [reflexivity |]. split; [apply (NoDup_seq 4 2) |].
  repeat constructor.
Qed.

Lemma C8_neighbour_witness :
  exists i e h',
    (equipement_of <$> [device_A; device_B]) !! i = Some e
    /\ Store.permuter_equipement 3 sample_random sample_store
       = Store.Returned (6%nat, avancer sample_random) h'
    /\ sol_at h' 6 (alter toggle i (equipement_of <$> [device_A; device_B])).
Proof.
  destruct (proj2 (C8_neighbour sample_store 3 _ sample_random
                     sample_store_solution))
    as (i & e & h' & He & _ & Hp & _ & _ & Hv & _).
  - discriminate.
  - exists i, e, h'. auto.
Defined.

Lemma fixed_store_solution :
  sol_at fixed_store 0 [equipement_of device_F].
Proof.
  exists [1%nat]. split; [reflexivity |]. split; [apply (NoDup_seq 1 1) |].
  repeat constructor.
Qed.

(** C8, as the specification states it, fails: on a solution whose only
    dictionary is not usable the exception raised is [IndexError], not
    [NoUsableDevice]. *)
Lemma C8_counterexample :
  sol_at fixed_store 0 [equipement_of device_F]
  /\ Values.usable [equipement_of device_F] = []
  /\ Store.permuter_equipement 0 sample_random fixed_store
     = Store.Raised IndexError
         (with_neighbour fixed_store [equipement_of device_F])
  /\ forall h', Store.permuter_equipement 0 sample_random fixed_store
                <> Store.Raised NoUsableDevice h'.
Proof.
  split; [exact fixed_store_solution |]. split; [reflexivity |].
  assert (H : Store.permuter_equipement 0 sample_random fixed_store
              = Store.Raised IndexError
                  (with_neighbour fixed_store [equipement_of device_F]))
    by reflexivity.
  split; [exact H |]. intros h'. rewrite H. discriminate.
Qed.

(** ** The caller's objects *)

(** C10.  Whether it returns or raises, a call of [recuit_simule] leaves
    every object the store held on entry as it was: the caller's list of
    devices still lists the same addresses, and each of them still holds
    the same device object.  The solution a call returns is at an address
    that did not exist on entry. *)
Theorem C10_input_untouched (self : Store.algo) (g : Random) (devices : nat)
    (pc sp sc bc stp : option R) (h : list Store.object) :
  let h' := Store.final (Store.recuit_simule self g devices pc sp sc bc stp h) in
  h `prefix_of` h'
  /\ (forall a o, h !! a = Some o -> h' !! a = Some o)
  /\ (forall items, Store.read_list h devices = Ok items ->
        Store.read_list h' devices = Ok items
        /\ forall d dev, Store.read_device h d = Ok dev ->
                         Store.read_device h' d = Ok dev)
  /\ (forall ans s g' h'',
        Store.recuit_simule self g devices pc sp sc bc stp h
        = Store.Returned (ans, s, g') h'' ->
        (length h <= fst (fst ans))%nat).
Proof.
  intros h'.
  destruct (recuit_simule_frame self g devices pc sp sc bc stp h) as [Hp Hfresh].
  fold h' in Hp.
  assert (Hkeep : forall a o, h !! a = Some o -> h' !! a = Some o).
  { intros a o Ha. eapply prefix_lookup_Some; eassumption. }
  split; [exact Hp |]. split; [exact Hkeep |]. split; [| exact Hfresh].
  intros items Hitems. split.
  - unfold Store.read_list in *.
    destruct (h !! devices) as [[| | l] |] eqn:Hd; try discriminate.
    rewrite (Hkeep _ _ Hd). exact Hitems.
  - intros d dev Hdev. unfold Store.read_device in *.
    destruct (h !! d) as [[x | |] |] eqn:Hd; try discriminate.
    rewrite (Hkeep _ _ Hd). exact Hdev.
Qed.

(** The sample call returns in the store semantics too. *)
Lemma sample_store_call_returns :
  exists ans s g' h',
    Store.recuit_simule sample_solver sample_random 0
      (Some (-1200)) (Some 1200) (Some 10) (Some 15) (Some 13) sample_store
    = Store.Returned (ans, s, g') h'.
Proof.
  pose proof (recuit_simule_refines sample_solver sample_solver sample_random
                sample_store 0 [1; 2]%nat [device_A; device_B]
                (Some (-1200)) (Some 1200) (Some 10) (Some 15) (Some 13)
                eq_refl eq_refl) as H.
  destruct sample_call_returns as [[[[[sol o] p] sv'] g'] Hv].
  rewrite Hv in H. destruct H as (a & ss' & h' & Hs & _).
  - repeat constructor.
  - exists (a, o, p), ss', g', h'. exact Hs.
Qed.

Lemma C10_input_untouched_witness :
  exists ans s g' h',
    Store.recuit_simule sample_solver sample_random 0
      (Some (-1200)) (Some 1200) (Some 10) (Some 15) (Some 13) sample_store
    = Store.Returned (ans, s, g') h'
    /\ h' !! 0%nat = Some (Store.PyList [1; 2]%nat)
    /\ h' !! 1%nat = Some (Store.Device device_A)
    /\ h' !! 2%nat = Some (Store.Device device_B)
    /\ (6 <= fst (fst ans))%nat.
Proof.
  destruct sample_store_call_returns as (ans & s & g' & h' & H).
  exists ans, s, g', h'. split; [exact H |].
  destruct (C10_input_untouched sample_solver sample_random 0
              (Some (-1200)) (Some 1200) (Some 10) (Some 15) (Some 13)
              sample_store) as (_ & Hkeep & _ & Hfresh).
  rewrite H in Hkeep. simpl in Hkeep.
  repeat split; try (apply Hkeep; reflexivity).
  exact (Hfresh _ _ _ _ H).
Defined.

(** * Part IV: further properties of the code *)

(** ** Total power *)

Lemma fold_left_Rplus_shift (l : list R) (a : R) :
  fold_left Rplus l a = a + fold_left Rplus l 0.
Proof.
  revert a. induction l as [| x l IH]; intros a; simpl; [lra |].
  rewrite (IH (a + x)), (IH (0 + x)). lra.
Qed.

Lemma total_power_nil : total_power [] = 0.
Proof. reflexivity. Qed.

Lemma total_power_cons (e : Equipement) (es : list Equipement) :
  total_power (e :: es)
  = (if state e then power_max e else 0) + total_power es.
Proof.
  unfold total_power. rewrite filter_cons.
  destruct (decide (state e = true)) as [Hs | Hs].
  - rewrite Hs, fmap_cons. simpl. rewrite fold_left_Rplus_shift. lra.
  - destruct (state e); [contradiction | lra].
Qed.

Lemma rated_power_cons (e : Equipement) (es : list Equipement) :
  rated_power (e :: es) = power_max e + rated_power es.
Proof.
  unfold rated_power. rewrite fmap_cons. simpl.
  rewrite fold_left_Rplus_shift. lra.
Qed.

Lemma total_power_toggle (sol : list Equipement) (i : nat) (e : Equipement) :
  sol !! i = Some e ->
  total_power (alter toggle i sol) = total_power sol + switch_power e.
Proof.
  revert i. induction sol as [| x sol IH]; intros [| i] H; try discriminate.
  - injection H as ->.
    change (alter toggle 0%nat (e :: sol)) with (toggle e :: sol).
    rewrite !total_power_cons. unfold switch_power.
    simpl. destruct (state e); simpl; lra.
  - change (alter toggle (S i) (x :: sol)) with (x :: alter toggle i sol).
    change (sol !! i = Some e) in H.
    rewrite !total_power_cons, (IH i H). lra.
Qed.

(** X1.  The neighbour [permuter_equipement] returns has, according to
    [consommation_equipements], the power of the solution it was given
    plus the rated power of the one usable dictionary it switched on, or
    minus that power if it switched it off. *)
Theorem X1_neighbour_power (sol v : Values.solution) (g g1 : Random) :
  Values.permuter_equipement sol g = Ok (v, g1) ->
  exists i e,
    sol !! i = Some e /\ is_usable e = true
    /\ v !! i = Some (toggle e)
    /\ Values.consommation_equipements v
       = Values.consommation_equipements sol + switch_power e.
Proof.
  intros H. apply permuter_equipement_Ok in H as (i & e & He & Hu & -> & _).
  exists i, e. repeat split; try assumption.
  - rewrite list_lookup_alter_eq, He. reflexivity.
  - apply total_power_toggle. exact He.
Qed.

Lemma X1_neighbour_power_witness :
  exists v g1 i e,
    Values.permuter_equipement (equipement_of <$> [device_A; device_B])
      sample_random = Ok (v, g1)
    /\ (equipement_of <$> [device_A; device_B]) !! i = Some e
    /\ Values.consommation_equipements v
       = Values.consommation_equipements (equipement_of <$> [device_A; device_B])
         + switch_power e.
Proof.
  destruct (permuter_equipement_returns (equipement_of <$> [device_A; device_B])
              sample_random) as (j & _ & H); [discriminate |].
  destruct (X1_neighbour_power _ _ _ _ H) as (i & e & He & _ & _ & Hp).
  eexists. eexists. exists i, e. split; [exact H |]. split; assumption.
Defined.

(** X2.  [consommation_equipements] is 0 on a solution in which no state
    is set, the empty solution included; and when no rated power is
    negative it lies between 0 and the sum of all the rated powers. *)
Theorem X2_power_bounds (sol : Values.solution) :
  ((forall e, e ∈ sol -> state e = false) ->
   Values.consommation_equipements sol = 0)
  /\ ((forall e, e ∈ sol -> 0 <= power_max e) ->
      0 <= Values.consommation_equipements sol <= rated_power sol).
Proof.
  unfold Values.consommation_equipements. split.
  - induction sol as [| e es IH]; intros H; [reflexivity |].
    rewrite total_power_cons, (H e) by left. rewrite IH; [lra |].
    intros x Hx. apply H. right. exact Hx.
  - induction sol as [| e es IH]; intros H.
    + unfold total_power, rated_power. simpl. lra.
    + rewrite total_power_cons, rated_power_cons.
      assert (He : 0 <= power_max e) by (apply H; left).
      destruct IH as [IH1 IH2]; [intros x Hx; apply H; right; exact Hx |].
      destruct (state e); lra.
Qed.

Lemma X2_power_bounds_witness :
  Values.consommation_equipements (equipement_of <$> [device_A; device_B]) = 0.
Proof.
  apply (proj1 (X2_power_bounds (equipement_of <$> [device_A; device_B]))).
  intros e He. simpl in He.
  apply elem_of_cons in He as [-> | He]; [reflexivity |].
  apply elem_of_cons in He as [-> | He]; [reflexivity | inversion He].
Defined.

(** ** The shape of the objective *)

(** X3.  With the context set and a non-zero divisor, the score of a
    solution is the import weight times the new net consumption when that
    is not negative, and the export weight times its opposite when it is
    negative.  With a positive buy cost, a positive sell cost and a tax
    below 100 percent, the score is 0 exactly when the new net consumption
    is 0. *)
Theorem X3_objective_shape (self : Values.algo) (sol : Values.solution)
    (initiale net production : R) :
  _puissance_totale_eqt_initiale self = Some initiale ->
  _consommation_net self = Some net ->
  _production_solaire self = Some production ->
  let after_tax := _cout_revente self * (1 - _taxe_revente self / 100) in
  let d := _cout_achat self + after_tax in
  let new_net := net + (Values.consommation_equipements sol - initiale) in
  d <> 0 ->
  (0 <= new_net ->
   Values.calculer_objectif self sol = Ok (_cout_achat self / d * new_net))
  /\ (new_net < 0 ->
      Values.calculer_objectif self sol = Ok (after_tax / d * - new_net))
  /\ (0 < _cout_achat self -> 0 < _cout_revente self ->
      _taxe_revente self < 100 ->
      (Values.calculer_objectif self sol = Ok 0 <-> new_net = 0)).
Proof.
  intros Hi Hn Hp after_tax d new_net Hd.
  rewrite (calculer_objectif_value self sol initiale net production Hi Hn Hp Hd).
  unfold spec_objective. fold after_tax. fold d.
  unfold Values.consommation_equipements in new_net. fold new_net.
  split; [| split].
  - intros Hx. rewrite Rmax_right by exact Hx. rewrite Rmax_left by lra.
    f_equal. lra.
  - intros Hx. rewrite Rmax_left by lra. rewrite Rmax_right by lra.
    f_equal. lra.
  - intros Hb Hs Ht.
    assert (Ha : 0 < after_tax) by (apply Rmult_lt_0_compat; lra).
    assert (Hdp : 0 < d) by (unfold d; lra).
    assert (Hwi : 0 < _cout_achat self / d) by (apply Rdiv_lt_0_compat; lra).
    assert (Hwe : 0 < after_tax / d) by (apply Rdiv_lt_0_compat; lra).
    destruct (Rle_dec 0 new_net) as [Hx | Hx].
    + rewrite (Rmax_right 0 new_net) by exact Hx.
      rewrite (Rmax_left 0 (- new_net)) by lra. split.
      * intros [= H]. nra.
      * intros ->. f_equal. lra.
    + rewrite (Rmax_left 0 new_net) by lra.
      rewrite (Rmax_right 0 (- new_net)) by lra. split.
      * intros [= H]. nra.
      * intros ->. f_equal. lra.
Qed.

Lemma X3_objective_shape_witness :
  Values.calculer_objectif sample_self
    [toggle (equipement_of device_A); equipement_of device_B]
  = Ok (10 * (1 - 13 / 100) / (15 + 10 * (1 - 13 / 100))
        * - (-1200 + (total_power
                        [toggle (equipement_of device_A);
                         equipement_of device_B] - 0))).
Proof.
  apply (X3_objective_shape sample_self _ 0 (-1200) 1200 eq_refl eq_refl eq_refl).
  - simpl. lra.
  - unfold Values.consommation_equipements, total_power. simpl. lra.
Defined.

(** X4.  With a positive buy cost, a non-negative sell cost and a tax of
    at most 100 percent, the score follows the total power in a V: of two
    solutions, the one with more power scores at least as much when the
    one with less already imports, and at most as much when the one with
    more still exports. *)
Theorem X4_objective_monotone (self : Values.algo)
    (sol1 sol2 : Values.solution) (initiale net production o1 o2 : R) :
  _puissance_totale_eqt_initiale self = Some initiale ->
  _consommation_net self = Some net ->
  _production_solaire self = Some production ->
  0 < _cout_achat self -> 0 <= _cout_revente self ->
  _taxe_revente self <= 100 ->
  Values.calculer_objectif self sol1 = Ok o1 ->
  Values.calculer_objectif self sol2 = Ok o2 ->
  Values.consommation_equipements sol1 <= Values.consommation_equipements sol2 ->
  (0 <= net + (Values.consommation_equipements sol1 - initiale) -> o1 <= o2)
  /\ (net + (Values.consommation_equipements sol2 - initiale) <= 0 -> o2 <= o1).
Proof.
  intros Hi Hn Hp Hb Hs Ht H1 H2 Hle.
  pose proof (denominator_pos _ _ _ Hb Hs Ht) as Hd. unfold denominator in Hd.
  assert (Hd' : denominator (_cout_achat self) (_cout_revente self)
                  (_taxe_revente self) <> 0) by (unfold denominator; lra).
  rewrite (calculer_objectif_value self sol1 initiale net production
             Hi Hn Hp Hd') in H1.
  rewrite (calculer_objectif_value self sol2 initiale net production
             Hi Hn Hp Hd') in H2.
  injection H1 as <-. injection H2 as <-.
  unfold Values.consommation_equipements in *. unfold spec_objective.
  set (a := _cout_revente self * (1 - _taxe_revente self / 100)) in *.
  assert (Ha : 0 <= a) by (apply Rmult_le_pos; lra).
  set (d := _cout_achat self + a) in *.
  assert (Hinv : 0 < / d) by (apply Rinv_0_lt_compat; exact Hd).
  assert (Hwi : 0 <= _cout_achat self / d)
    by (unfold Rdiv; apply Rmult_le_pos; lra).
  assert (Hwe : 0 <= a / d) by (unfold Rdiv; apply Rmult_le_pos; lra).
  set (x1 := net + (total_power sol1 - initiale)).
  set (x2 := net + (total_power sol2 - initiale)).
  assert (Hx : x1 <= x2) by (unfold x1, x2; lra).
  split; intros H0.
  - rewrite (Rmax_right 0 x1), (Rmax_left 0 (- x1)),
      (Rmax_right 0 x2), (Rmax_left 0 (- x2)) by lra. nra.
  - rewrite (Rmax_left 0 x1), (Rmax_right 0 (- x1)),
      (Rmax_left 0 x2), (Rmax_right 0 (- x2)) by lra. nra.
Qed.

Lemma X4_objective_monotone_witness :
  spec_objective 15 10 13 (-1200) 0
    (total_power [toggle (equipement_of device_A); equipement_of device_B])
  <= spec_objective 15 10 13 (-1200) 0
       (total_power (equipement_of <$> [device_A; device_B])).
Proof.
  refine (proj2 (X4_objective_monotone sample_self
                   (equipement_of <$> [device_A; device_B])
                   [toggle (equipement_of device_A); equipement_of device_B]
                   0 (-1200) 1200 _ _ eq_refl eq_refl eq_refl _ _ _
                   (sample_self_score _) (sample_self_score _) _) _);
    unfold Values.consommation_equipements, total_power; simpl; lra.
Defined.

(** ** What a call depends on *)

Lemma preparer_prepared (self : Values.algo) (g : Random)
    (devices : list ManagedDevice) (pc sp sc bc stp : R) :
  Values.preparer self g devices pc sp sc bc stp
  = (o ← Values.calculer_objectif (prepared self devices pc sp sc bc stp)
           (equipement_of <$> devices);
     Ok (prepared self devices pc sp sc bc stp,
         {| solution_actuelle := equipement_of <$> devices;
            meilleure_solution := equipement_of <$> devices;
            meilleure_objectif := o;
            temperature := _temperature_initiale self;
            objectif_actuel := None;
            voisin := None;
            objectif_voisin := None;
            generator := g |})).
Proof. reflexivity. Qed.

(** The loop body uses the solver only to score solutions and to cool. *)
Lemma iteration_ext (s1 s2 : Values.algo) (f : Values.frame) :
  (forall sol, Values.calculer_objectif s1 sol = Values.calculer_objectif s2 sol) ->
  _facteur_refroidissement s1 = _facteur_refroidissement s2 ->
  Values.iteration s1 f = Values.iteration s2 f.
Proof.
  intros Hobj Hc. unfold Values.iteration. rewrite (Hobj (solution_actuelle f)).
  destruct (Values.calculer_objectif s2 (solution_actuelle f)) as [oa | e];
    simpl; [| reflexivity].
  destruct (Values.permuter_equipement _ _) as [[v g1] | e]; simpl;
    [| reflexivity].
  rewrite (Hobj v).
  destruct (Values.calculer_objectif s2 v) as [ov | e]; simpl; [| reflexivity].
  rewrite (Hobj (meilleure_solution f)), Hc. reflexivity.
Qed.

Lemma boucle_ext (s1 s2 : Values.algo) (n : nat) (f : Values.frame) :
  (forall sol, Values.calculer_objectif s1 sol = Values.calculer_objectif s2 sol) ->
  _facteur_refroidissement s1 = _facteur_refroidissement s2 ->
  _temperature_minimale s1 = _temperature_minimale s2 ->
  Values.boucle s1 n f = Values.boucle s2 n f.
Proof.
  intros Hobj Hc Hm. revert f. induction n as [| n IH]; intros f; [reflexivity |].
  simpl. rewrite (iteration_ext s1 s2 f Hobj Hc).
  destruct (Values.iteration s2 f) as [f1 | e]; simpl; [| reflexivity].
  rewrite Hm. destruct (Rlt_dec _ _); [reflexivity | apply IH].
Qed.

(** Two calls on the same devices with the same generator give the same
    answer when their solvers have the same annealing parameters and,
    once prepared, score every solution alike. *)
Lemma calls_agree (s1 s2 : Values.algo) (g : Random) (d : ManagedDevice)
    (ds : list ManagedDevice) (a1 b1 c1 e1 t1 a2 b2 c2 e2 t2 : R) :
  parameters s1 = parameters s2 ->
  (forall sol,
     Values.calculer_objectif (prepared s1 (d :: ds) a1 b1 c1 e1 t1) sol
     = Values.calculer_objectif (prepared s2 (d :: ds) a2 b2 c2 e2 t2) sol) ->
  answer_and_generator
    (Values.recuit_simule s1 g (d :: ds) (Some a1) (Some b1) (Some c1)
       (Some e1) (Some t1))
  = answer_and_generator
      (Values.recuit_simule s2 g (d :: ds) (Some a2) (Some b2) (Some c2)
         (Some e2) (Some t2)).
Proof.
  intros Hpar Hobj. injection Hpar as HT Hm Hc Hn.
  unfold Values.recuit_simule. rewrite !preparer_prepared.
  rewrite (Hobj (equipement_of <$> (d :: ds))).
  destruct (Values.calculer_objectif (prepared s2 _ _ _ _ _ _) _) as [o | e];
    simpl; [| reflexivity].
  rewrite HT, Hn.
  rewrite (boucle_ext (prepared s1 (d :: ds) a1 b1 c1 e1 t1)
             (prepared s2 (d :: ds) a2 b2 c2 e2 t2) _ _ Hobj Hc Hm).
  destruct (Values.boucle _ _ _) as [ff | e]; reflexivity.
Qed.

Lemma prepared_score (self : Values.algo) (devices : list ManagedDevice)
    (pc sp sc bc stp : R) (sol : Values.solution) :
  Values.calculer_objectif (prepared self devices pc sp sc bc stp) sol
  = if Req_dec_T (denominator bc sc stp) 0
    then Raise ZeroDivisionError
    else Ok (spec_objective bc sc stp pc
               (total_power (equipement_of <$> devices)) (total_power sol)).
Proof.
  destruct (Req_dec_T (denominator bc sc stp) 0) as [Hz | Hnz].
  - apply calculer_objectif_zero; [| exact Hz].
    repeat split; eexists; reflexivity.
  - apply (calculer_objectif_value (prepared self devices pc sp sc bc stp) sol
             (total_power (equipement_of <$> devices)) pc sp);
      try reflexivity. exact Hnz.
Qed.

(** X6.  The solar production only has to be given: whatever its value, a
    call gives the same answer, or raises the same exception. *)
Theorem X6_solar_production_unused (self : Values.algo) (g : Random)
    (devices : list ManagedDevice) (pc sc bc stp : option R) (sp sp' : R) :
  answer_and_generator
    (Values.recuit_simule self g devices pc (Some sp) sc bc stp)
  = answer_and_generator
      (Values.recuit_simule self g devices pc (Some sp') sc bc stp).
Proof.
  destruct devices as [| d ds]; [reflexivity |].
  destruct pc as [pc |], sc as [sc |], bc as [bc |], stp as [stp |];
    try reflexivity.
  apply calls_agree; [reflexivity |]. intros sol. rewrite !prepared_score.
  reflexivity.
Qed.

(** X7.  A call takes nothing from earlier calls: two solvers with the
    same four annealing parameters, whatever context, working list and
    baseline earlier calls left in them, give the same answer, or raise
    the same exception, on the same arguments and generator. *)
Theorem X7_calls_self_contained (s1 s2 : Values.algo) (g : Random)
    (devices : list ManagedDevice) (pc sp sc bc stp : option R) :
  parameters s1 = parameters s2 ->
  answer_and_generator (Values.recuit_simule s1 g devices pc sp sc bc stp)
  = answer_and_generator (Values.recuit_simule s2 g devices pc sp sc bc stp).
Proof.
  intros Hpar.
  destruct devices as [| d ds]; [reflexivity |].
  destruct pc as [pc |], sp as [sp |], sc as [sc |], bc as [bc |],
    stp as [stp |]; try reflexivity.
  apply calls_agree; [exact Hpar |]. intros sol. rewrite !prepared_score.
  reflexivity.
Qed.

Lemma X7_calls_self_contained_witness :
  answer_and_generator
    (Values.recuit_simule sample_self sample_random [device_A; device_B]
       (Some 300) (Some 0) (Some 10) (Some 15) (Some 13))
  = answer_and_generator
      (Values.recuit_simule free_self sample_random [device_A; device_B]
         (Some 300) (Some 0) (Some 10) (Some 15) (Some 13)).
Proof.
  apply X7_calls_self_contained. reflexivity.
Defined.

(** ** The solver between calls *)

(** X8.  A call that reaches the annealing and returns leaves the four
    annealing parameters of the solver as they were, and leaves in it the
    three tariffs and the two powers it was given, the working list built
    from the devices, and the total power of that list as the baseline;
    on the solver it leaves, [calculer_objectif] returns for every
    solution. *)
Theorem X8_solver_after_call (self self' : Values.algo) (g g' : Random)
    (d : ManagedDevice) (ds : list ManagedDevice) (pc sp sc bc stp : R)
    (ans : Values.answer) :
  Values.recuit_simule self g (d :: ds) (Some pc) (Some sp) (Some sc)
    (Some bc) (Some stp) = Ok (ans, self', g') ->
  parameters self' = parameters self
  /\ _cout_achat self' = bc /\ _cout_revente self' = sc
  /\ _taxe_revente self' = stp
  /\ _consommation_net self' = Some pc
  /\ _production_solaire self' = Some sp
  /\ _equipements self' = Some (equipement_of <$> (d :: ds))
  /\ _puissance_totale_eqt_initiale self'
     = Some (total_power (equipement_of <$> (d :: ds)))
  /\ forall sol, returns (Values.calculer_objectif self' sol).
Proof.
  intros H. apply recuit_simule_Ok in H as (f0 & ff & Hp & _).
  pose proof (preparer_Ok _ _ _ _ _ _ _ _ _ _ Hp)
    as (_ & _ & _ & _ & _ & _ & _ & _ & _ & Hscore).
  rewrite preparer_prepared in Hp. apply bind_Ok in Hp as (o & _ & [= <- _]).
  repeat split; try reflexivity.
  intros sol. eexists. apply Hscore.
Qed.

Lemma X8_solver_after_call_witness :
  exists ans self' g',
    Values.recuit_simule sample_solver sample_random [device_A; device_B]
      (Some (-1200)) (Some 1200) (Some 10) (Some 15) (Some 13)
    = Ok (ans, self', g')
    /\ parameters self' = (1000, 1 / 10, 95 / 100, 1000%Z)
    /\ _cout_achat self' = 15.
Proof.
  destruct sample_call_returns as [[[ans self'] g'] H].
  destruct (X8_solver_after_call _ _ _ _ _ _ _ _ _ _ _ _ H)
    as (Hpar & Hb & _).
  exists ans, self', g'. split; [exact H |]. split; [exact Hpar | exact Hb].
Defined.

(** X9.  On a solver in which no baseline has been stored, as [__init__]
    leaves it, [calculer_objectif] raises [AttributeError] for every
    solution; a call of [recuit_simule] with a missing input does not
    change that. *)
Theorem X9_objective_before_any_call (self : Values.algo) (g : Random)
    (devices : list ManagedDevice) (pc sp sc bc stp : option R)
    (sol : Values.solution) :
  _puissance_totale_eqt_initiale self = None ->
  missing_input devices pc sp sc bc stp ->
  Values.calculer_objectif self sol = Raise AttributeError
  /\ exists ans self' g',
       Values.recuit_simule self g devices pc sp sc bc stp
       = Ok (ans, self', g')
       /\ Values.calculer_objectif self' sol = Raise AttributeError.
Proof.
  intros Hnone Hm.
  assert (H : Values.calculer_objectif self sol = Raise AttributeError).
  { unfold Values.calculer_objectif, objectif. rewrite Hnone. reflexivity. }
  split; [exact H |].
  exists Values.sentinel, self, g. split; [| exact H].
  apply recuit_simule_missing. exact Hm.
Qed.

Lemma X9_objective_before_any_call_witness :
  Values.calculer_objectif (init 1000 (1 / 10) (95 / 100) 1000)
    (equipement_of <$> [device_A; device_B])
  = Raise AttributeError.
Proof.
  apply (X9_objective_before_any_call (init 1000 (1 / 10) (95 / 100) 1000)
           sample_random [] None None None None None).
  - reflexivity.
  - left. reflexivity.
Defined.

(** ** Edges of the loop *)

Lemma to_nat_nonpos (n : Z) : (n <= 0)%Z -> Z.to_nat n = 0%nat.
Proof. destruct n; simpl; [reflexivity | lia | reflexivity]. Qed.

(** X10.  With [max_iteration_number] zero or negative the loop body never
    runs: a call with its inputs given and a non-zero divisor returns the
    states of the devices as they are, their score and their total power,
    and draws nothing from the random generator, also when no device is
    usable. *)
Theorem X10_no_iteration (self : Values.algo) (g : Random)
    (d : ManagedDevice) (ds : list ManagedDevice) (pc sp sc bc stp : R) :
  (_nombre_iterations self <= 0)%Z ->
  denominator bc sc stp <> 0 ->
  let eqts := equipement_of <$> (d :: ds) in
  Values.recuit_simule self g (d :: ds) (Some pc) (Some sp) (Some sc)
    (Some bc) (Some stp)
  = Ok ((eqts,
         spec_objective bc sc stp pc (total_power eqts) (total_power eqts),
         total_power eqts),
        prepared self (d :: ds) pc sp sc bc stp, g).
Proof.
  intros Hn Hd eqts. unfold Values.recuit_simule.
  rewrite preparer_prepared, prepared_score.
  destruct (Req_dec_T (denominator bc sc stp) 0); [contradiction |].
  simpl. rewrite (to_nat_nonpos _ Hn). reflexivity.
Qed.

Lemma X10_no_iteration_witness :
  answer_and_generator
    (Values.recuit_simule (init 1000 (1 / 10) (95 / 100) 0) sample_random
       [device_F] (Some (-1200)) (Some 1200) (Some 10) (Some 15) (Some 13))
  = Ok (([equipement_of device_F],
         spec_objective 15 10 13 (-1200)
           (total_power [equipement_of device_F])
           (total_power [equipement_of device_F]),
         total_power [equipement_of device_F]), sample_random).
Proof.
  rewrite (X10_no_iteration (init 1000 (1 / 10) (95 / 100) 0) sample_random
             device_F [] (-1200) 1200 10 15 13).
  - reflexivity.
  - simpl. lia.
  - unfold denominator. lra.
Defined.

(** X11.  The test against the minimum temperature comes after the
    cooling: when the initial temperature times the cooling factor is
    already below the minimum and at least one iteration is allowed, a
    call that returns has run the loop body exactly once. *)
Theorem X11_one_iteration_when_cold (self self' : Values.algo)
    (g g' : Random) (d : ManagedDevice) (ds : list ManagedDevice)
    (pc sp sc bc stp : R) (ans : Values.answer) :
  (0 < _nombre_iterations self)%Z ->
  _temperature_initiale self * _facteur_refroidissement self
  < _temperature_minimale self ->
  Values.recuit_simule self g (d :: ds) (Some pc) (Some sp) (Some sc)
    (Some bc) (Some stp) = Ok (ans, self', g') ->
  exists f0 f1,
    Values.preparer self g (d :: ds) pc sp sc bc stp = Ok (self', f0)
    /\ Values.iteration self' f0 = Ok f1
    /\ ans = (meilleure_solution f1, meilleure_objectif f1,
              total_power (meilleure_solution f1))
    /\ g' = generator f1.
Proof.
  intros Hn Hcold H.
  apply recuit_simule_Ok in H as (f0 & ff & Hp & Hb & -> & ->).
  pose proof (preparer_Ok _ _ _ _ _ _ _ _ _ _ Hp)
    as (_ & _ & _ & _ & HT0 & _ & Hc & Hm & Hn' & _).
  rewrite Hn' in Hb.
  destruct (Z.to_nat (_nombre_iterations self)) as [| n] eqn:En; [lia |].
  simpl in Hb. apply bind_Ok in Hb as (f1 & H1 & Hb).
  pose proof (iteration_cases _ _ _ H1)
    as (_ & _ & _ & _ & _ & _ & _ & _ & _ & _ & HT & _).
  destruct (Rlt_dec (temperature f1) (_temperature_minimale self'))
    as [_ | Hge].
  - injection Hb as <-. exists f0, f1. auto.
  - exfalso. apply Hge. rewrite HT, HT0, Hc, Hm. exact Hcold.
Qed.

Lemma X11_one_iteration_when_cold_witness :
  exists ans self' g' f0 f1,
    Values.recuit_simule (init 1 2 (1 / 2) 10) sample_random
      [device_A; device_B] (Some (-1200)) (Some 1200) (Some 10) (Some 15)
      (Some 13) = Ok (ans, self', g')
    /\ Values.iteration self' f0 = Ok f1
    /\ ans = (meilleure_solution f1, meilleure_objectif f1,
              total_power (meilleure_solution f1)).
Proof.
  destruct (recuit_simule_returns (init 1 2 (1 / 2) 10) sample_random
              [device_A; device_B] (Some (-1200)) (Some 1200) (Some 10)
              (Some 15) (Some 13)) as [[[ans self'] g'] H].
  - exists 0%nat, device_A. split; reflexivity.
  - intros b s t [= <-] [= <-] [= <-]. unfold denominator. lra.
  - simpl. lra.
  - simpl. lra.
  - assert (Hn : (0 < _nombre_iterations
                         (init (Sol := list Equipement) 1 2 (1 / 2) 10))%Z)
      by (simpl; lia).
    assert (Hcold :
      _temperature_initiale (init (Sol := list Equipement) 1 2 (1 / 2) 10)
      * _facteur_refroidissement (init (Sol := list Equipement) 1 2 (1 / 2) 10)
      < _temperature_minimale (init (Sol := list Equipement) 1 2 (1 / 2) 10))
      by (simpl; lra).
    destruct (X11_one_iteration_when_cold _ _ _ _ _ _ _ _ _ _ _ _ Hn Hcold H)
      as (f0 & f1 & _ & H1 & Hans & _).
    exists ans, self', g', f0, f1. auto.
Defined.

(** X12.  The division by the temperature is only reached when the
    neighbour is not better: at temperature zero an iteration accepts a
    neighbour that scores below the current solution and returns, and
    raises [ZeroDivisionError] for any other neighbour. *)
Theorem X12_zero_temperature (self : Values.algo) (f : Values.frame) :
  (forall sol, returns (Values.calculer_objectif self sol)) ->
  Values.usable (solution_actuelle f) <> [] ->
  temperature f = 0 ->
  exists oa v g1 ov,
    Values.calculer_objectif self (solution_actuelle f) = Ok oa
    /\ Values.permuter_equipement (solution_actuelle f) (generator f)
       = Ok (v, g1)
    /\ Values.calculer_objectif self v = Ok ov
    /\ (ov < oa ->
        exists f', Values.iteration self f = Ok f'
                   /\ solution_actuelle f' = v /\ temperature f' = 0)
    /\ (~ ov < oa -> Values.iteration self f = Raise ZeroDivisionError).
Proof.
  intros Hobj Hus HT.
  destruct (Hobj (solution_actuelle f)) as [oa Hoa].
  destruct (permuter_equipement_returns _ (generator f) Hus) as (i & _ & Hperm).
  destruct (Hobj (alter toggle i (solution_actuelle f))) as [ov Hov].
  destruct (Hobj (meilleure_solution f)) as [ob Hob].
  exists oa, (alter toggle i (solution_actuelle f)), (avancer (generator f)), ov.
  repeat (split; [assumption |]).
  unfold Values.iteration. rewrite Hoa. simpl. rewrite Hperm. simpl.
  rewrite Hov. simpl. rewrite Hob, HT. split; intros Hlt.
  - destruct (Rlt_dec ov oa); [| contradiction]. simpl.
    destruct (Rlt_dec ov ob); simpl; eexists;
      (split; [reflexivity |]); simpl; split; (reflexivity || lra).
  - destruct (Rlt_dec ov oa); [contradiction |].
    rewrite truediv_zero by reflexivity. reflexivity.
Qed.

Lemma X12_zero_temperature_witness :
  exists oa v g1 ov,
    Values.calculer_objectif sample_self
      (solution_actuelle (set_temperature warm_frame 0)) = Ok oa
    /\ Values.permuter_equipement
         (solution_actuelle (set_temperature warm_frame 0))
         (generator (set_temperature warm_frame 0)) = Ok (v, g1)
    /\ Values.calculer_objectif sample_self v = Ok ov.
Proof.
  destruct (X12_zero_temperature sample_self (set_temperature warm_frame 0))
    as (oa & v & g1 & ov & Hoa & Hp & Hov & _).
  - intros sol. eexists. apply sample_self_score.
  - discriminate.
  - reflexivity.
  - exists oa, v, g1, ov. auto.
Defined.

(** ** Acceptance *)

(** X13.  A neighbour with the same score as the current solution is
    always accepted: the probability is [exp(0) = 1] and
    [random.random()] draws below 1. *)
Theorem X13_equal_score_accepted (self : Values.algo) (f f' : Values.frame)
    (v : Values.solution) (g1 : Random) (o : R) :
  Values.iteration self f = Ok f' ->
  Values.calculer_objectif self (solution_actuelle f) = Ok o ->
  Values.permuter_equipement (solution_actuelle f) (generator f) = Ok (v, g1) ->
  Values.calculer_objectif self v = Ok o ->
  fst (random_random g1) < 1 ->
  solution_actuelle f' = v
  /\ meilleure_solution f' = meilleure_solution f.
Proof.
  intros H Hoa Hperm Hov Hu.
  apply iteration_cases in H
    as (oa & v' & g1' & ov & Hoa' & Hperm' & Hov' & _ & _ & _ & _ & Hcase).
  rewrite Hperm in Hperm'. injection Hperm' as <- <-.
  rewrite Hoa in Hoa'. injection Hoa' as <-.
  rewrite Hov in Hov'. injection Hov' as <-.
  destruct Hcase as [(Hlt & _) | (_ & HT & _ & Hbs & _ & Hacc)]; [lra |].
  split; [| exact Hbs].
  destruct Hacc as [(_ & Hc) | (Hrej & _)]; [exact Hc |].
  exfalso. apply Hrej.
  replace ((o - o) / temperature f) with 0 by (field; exact HT).
  rewrite exp_0. exact Hu.
Qed.

Lemma iteration_set_temperature_returns (T : R) :
  T <> 0 -> returns (Values.iteration sample_self (set_temperature warm_frame T)).
Proof.
  intros HT. apply iteration_returns.
  - intros sol. eexists. apply sample_self_score.
  - discriminate.
  - exact HT.
Qed.

(** X14.  Cooling never makes a move more acceptable: with the same
    current solution, neighbour and draw, a neighbour that is accepted at
    a positive temperature is accepted at every higher temperature. *)
Theorem X14_warmer_accepts_more (self : Values.algo) (f f1 f2 : Values.frame)
    (T1 T2 : R) :
  0 < T1 <= T2 ->
  Values.iteration self (set_temperature f T1) = Ok f1 ->
  Values.iteration self (set_temperature f T2) = Ok f2 ->
  exists v, voisin f1 = Some v /\ voisin f2 = Some v
    /\ (solution_actuelle f1 = v -> solution_actuelle f2 = v).
Proof.
  intros [HT1 HT12] H1 H2.
  apply iteration_cases in H1
    as (oa & v & g1 & ov & Hoa & Hperm & Hov & _ & Hv1 & _ & _ & Hc1).
  apply iteration_cases in H2
    as (oa' & v' & g1' & ov' & Hoa' & Hperm' & Hov' & _ & Hv2 & _ & _ & Hc2).
  simpl in *. rewrite Hperm in Hperm'. injection Hperm' as <- <-.
  rewrite Hoa in Hoa'. injection Hoa' as <-.
  rewrite Hov in Hov'. injection Hov' as <-.
  exists v. split; [exact Hv1 |]. split; [exact Hv2 |]. intros Hacc1.
  destruct Hc2 as [(_ & Hcur2 & _) | (Hge & _ & _ & _ & _ & Hacc2)];
    [exact Hcur2 |].
  destruct Hacc2 as [(_ & Hcur2) | (Hrej2 & _)]; [exact Hcur2 |].
  exfalso. destruct Hc1 as [(Hlt & _) | (_ & _ & _ & _ & _ & Hacc)];
    [contradiction |].
  apply permuter_equipement_Ok in Hperm as (i & e & He & _ & Hveq & _).
  assert (Hne : v <> solution_actuelle f)
    by (rewrite Hveq; eapply toggle_changes; exact He).
  destruct Hacc as [(Hu & _) | (_ & Hcur1)]; [| congruence].
  apply Hrej2. eapply Rlt_le_trans; [exact Hu |].
  assert (Hd : oa - ov <= 0) by lra.
  assert (Hq : (oa - ov) / T1 <= (oa - ov) / T2).
  { unfold Rdiv. assert (/ T2 <= / T1) by (apply Rinv_le_contravar; lra).
    assert (0 < / T2) by (apply Rinv_0_lt_compat; lra). nra. }
  destruct Hq as [Hq | ->]; [left; apply exp_increasing; exact Hq | right; reflexivity].
Qed.

Lemma X14_warmer_accepts_more_witness :
  exists f1 f2 v,
    Values.iteration sample_self (set_temperature warm_frame 1) = Ok f1
    /\ Values.iteration sample_self (set_temperature warm_frame 1000) = Ok f2
    /\ voisin f1 = Some v /\ voisin f2 = Some v
    /\ (solution_actuelle f1 = v -> solution_actuelle f2 = v).
Proof.
  destruct (iteration_set_temperature_returns 1) as [f1 H1]; [lra |].
  destruct (iteration_set_temperature_returns 1000) as [f2 H2]; [lra |].
  assert (HT : 0 < 1 <= 1000) by lra.
  destruct (X14_warmer_accepts_more sample_self warm_frame f1 f2 1 1000
              HT H1 H2) as (v & Hv1 & Hv2 & Hacc).
  exists f1, f2, v. auto.
Defined.

Lemma X13_equal_score_accepted_witness :
  exists f',
    Values.iteration sample_self idle_frame = Ok f'
    /\ solution_actuelle f' = [toggle (equipement_of device_Z)].
Proof.
  destruct (iteration_returns sample_self idle_frame) as [f' H].
  - intros sol. eexists. apply sample_self_score.
  - discriminate.
  - simpl. lra.
  - exists f'. split; [exact H |].
    refine (proj1 (X13_equal_score_accepted sample_self idle_frame f'
                     [toggle (equipement_of device_Z)] (avancer sample_random)
                     (spec_objective 15 10 13 (-1200) 0 0) H _ eq_refl _ _)).
    + apply sample_self_score.
    + rewrite sample_self_score. do 2 f_equal.
      unfold total_power. simpl. lra.
    + simpl. lra.
Defined.

(** ** The neighbourhood *)

Lemma toggle_toggle (e : Equipement) : toggle (toggle e) = e.
Proof. destruct e as [p n s u]. unfold toggle. simpl. rewrite negb_involutive. reflexivity. Qed.

Lemma alter_toggle_twice (sol : list Equipement) (i : nat) :
  alter toggle i (alter toggle i sol) = sol.
Proof.
  rewrite list_alter_alter_eq. apply list_alter_id. intros x. apply toggle_toggle.
Qed.

(** X15.  [permuter_equipement] keeps the length of the solution and the
    positions of its usable dictionaries, and its move can be undone: the
    solution it was given is what [permuter_equipement] returns on the
    neighbour when [random.choice] picks the same dictionary again. *)
Theorem X15_neighbour_symmetric (sol v : Values.solution) (g g1 : Random) :
  Values.permuter_equipement sol g = Ok (v, g1) ->
  length v = length sol
  /\ Values.usable v = Values.usable sol
  /\ exists g2, Values.permuter_equipement v g2 = Ok (sol, avancer g2).
Proof.
  intros H. unfold Values.permuter_equipement in H.
  apply bind_Ok in H as ([i g'] & Hc & [= <- <-]).
  split; [apply length_alter |]. split; [apply usable_alter_toggle |].
  unfold random_choice in Hc.
  destruct (Values.usable sol !! _) as [j |] eqn:Hj; [| discriminate].
  injection Hc as -> _.
  set (k := (entiers g (curseur g) mod length (Values.usable sol))%nat) in *.
  exists {| entiers := fun _ => k; reels := reels g; curseur := 0 |}.
  unfold Values.permuter_equipement, random_choice.
  rewrite usable_alter_toggle. simpl.
  rewrite Nat.mod_small by (eapply lookup_lt_Some; exact Hj).
  rewrite Hj. simpl. rewrite alter_toggle_twice. reflexivity.
Qed.

Lemma X15_neighbour_symmetric_witness :
  exists v g1 g2,
    Values.permuter_equipement (equipement_of <$> [device_F; device_A])
      sample_random = Ok (v, g1)
    /\ Values.usable v = [1%nat]
    /\ Values.permuter_equipement v g2
       = Ok (equipement_of <$> [device_F; device_A], avancer g2).
Proof.
  destruct (permuter_equipement_returns (equipement_of <$> [device_F; device_A])
              sample_random) as (j & _ & H); [discriminate |].
  destruct (X15_neighbour_symmetric _ _ _ _ H) as (_ & Hus & g2 & Hback).
  eexists. eexists. exists g2. split; [exact H |]. split; [exact Hus | exact Hback].
Defined.

(** ** What a call allocates *)

Lemma permuter_equipement_length (sol v : Values.solution) (g g1 : Random) :
  Values.permuter_equipement sol g = Ok (v, g1) -> length v = length sol.
Proof.
  intros H. apply permuter_equipement_Ok in H as (i & e & _ & _ & -> & _).
  apply length_alter.
Qed.

(** The store an iteration leaves: the one it found, or that one followed
    by a neighbour of the current solution's size and its list [usable]. *)
Lemma iteration_store (ss : Store.algo) (fs : Store.frame)
    (h : list Store.object) (eqts : list Equipement) :
  sol_at h (solution_actuelle fs) eqts ->
  match Store.iteration ss fs h with
  | Store.Returned fs' h' =>
      exists v, h' = with_neighbour h v /\ length v = length eqts
                /\ voisin fs' = Some (length h)
  | Store.Raised _ h' =>
      h' = h \/ exists v, h' = with_neighbour h v /\ length v = length eqts
  end.
Proof.
  intros Hs. unfold Store.iteration.
  destruct (Store.calculer_objectif ss h (solution_actuelle fs)) as [oa | e];
    simpl; [| left; reflexivity].
  rewrite (permuter_equipement_sim h _ eqts (generator fs) Hs).
  destruct (Values.permuter_equipement eqts (generator fs)) as [[v g1] | e]
    eqn:Hperm; simpl; [| right; exists eqts; auto].
  apply permuter_equipement_length in Hperm.
  destruct (Store.calculer_objectif ss (with_neighbour h v) (length h))
    as [ov | e]; simpl; [| right; exists v; auto].
  destruct (Rlt_dec ov oa).
  - destruct (Store.calculer_objectif ss (with_neighbour h v)
                (meilleure_solution fs))
      as [ob | e]; simpl; [| right; exists v; auto].
    destruct (Rlt_dec ov ob); simpl; exists v; auto.
  - destruct (truediv (oa - ov) (temperature fs)) as [q | e]; simpl;
      [| right; exists v; auto].
    destruct (Rlt_dec _ _); simpl; exists v; auto.
Qed.

(** X16.  Of the objects the store holds, the lists and dictionaries the
    solver's code names, an iteration that returns has allocated the
    neighbour, one list and one dictionary per dictionary of the current
    solution, then the list [usable], which holds the dictionaries of the
    neighbour that have [is_usable] set, and nothing else; an iteration
    that raises has allocated that much or nothing. *)
Theorem X16_iteration_allocates_one_copy (ss : Store.algo) (fs : Store.frame)
    (h : list Store.object) (eqts : list Equipement) :
  sol_at h (solution_actuelle fs) eqts ->
  (length (Store.final (Store.iteration ss fs h)) = length h
   \/ length (Store.final (Store.iteration ss fs h))
      = (length h + 2 + length eqts)%nat)
  /\ forall fs' h',
       Store.iteration ss fs h = Store.Returned fs' h' ->
       length h' = (length h + 2 + length eqts)%nat
       /\ voisin fs' = Some (length h)
       /\ exists v,
            sol_at h' (length h) v /\ length v = length eqts
            /\ h' !! (length h + 1 + length eqts)%nat
               = Some (Store.PyList
                         ((fun i => (S (length h) + i)%nat)
                            <$> Values.usable v)).
Proof.
  intros Hs. pose proof (iteration_store ss fs h eqts Hs) as H.
  destruct (Store.iteration ss fs h) as [fs1 h1 | e h1]; simpl.
  - destruct H as (v & -> & Hlen & Hv). rewrite with_neighbour_length.
    split; [right; lia |]. intros fs' h' [= <- <-].
    split; [rewrite with_neighbour_length; lia |]. split; [exact Hv |].
    exists v. split; [apply with_neighbour_sol_at |]. split; [exact Hlen |].
    unfold with_neighbour. apply list_lookup_middle.
    rewrite with_copy_length. lia.
  - split; [| discriminate].
    destruct H as [-> | (v & -> & Hlen)]; [left; reflexivity |].
    right. rewrite with_neighbour_length. lia.
Qed.

Lemma X16_iteration_allocates_one_copy_witness :
  length (Store.final
            (Store.iteration sample_solver sample_store_frame sample_store))
  = 6%nat
  \/ length (Store.final
               (Store.iteration sample_solver sample_store_frame sample_store))
     = 10%nat.
Proof.
  exact (proj1 (X16_iteration_allocates_one_copy sample_solver
                  sample_store_frame sample_store _ sample_store_solution)).
Defined.

(** What [preparer] does to the store: the working list, then the initial
    solution, each as a copy of the devices' contents. *)
Lemma preparer_store (ss : Store.algo) (g : Random) (h : list Store.object)
    (devices : list nat) (devs : list ManagedDevice) (pc sp sc bc stp : R) :
  Forall2 (fun d dev => h !! d = Some (Store.Device dev)) devices devs ->
  let eqts := equipement_of <$> devs in
  let h1 := with_copy h eqts in
  let h2 := with_copy h1 eqts in
  let ss2 :=
    set_puissance_initiale
      (set_equipements (set_context ss bc sc stp pc sp) (length h))
      (total_power eqts) in
  Store.preparer ss g devices pc sp sc bc stp h
  = match Store.calculer_objectif ss2 h2 (length h1) with
    | Ok o =>
        Store.Returned
          (ss2,
           {| solution_actuelle := length h1;
              meilleure_solution := length h1;
              meilleure_objectif := o;
              temperature := _temperature_initiale ss;
              objectif_actuel := None;
              voisin := None;
              objectif_voisin := None;
              generator := g |}) h2
    | Raise e => Store.Raised e h2
    end.
Proof.
  intros Hd eqts h1 h2 ss2.
  unfold Store.preparer, Store.alloc, Store.generer_solution_initiale. simpl.
  change (h ++ [Store.PyList []]) with (with_copy h []).
  rewrite (build_spec h devices devs Hd []). simpl. fold eqts. fold h1.
  pose proof (with_copy_sol_at h eqts) as Hs1. fold h1 in Hs1.
  unfold Store.consommation_equipements.
  rewrite (contents_sol_at _ _ _ Hs1). simpl.
  rewrite (deepcopy_spec _ _ _ Hs1). simpl. fold h2. fold ss2.
  destruct (Store.calculer_objectif ss2 h2 (length h1)); reflexivity.
Qed.





(** ** The working list *)

(** X18.  A call that reaches the annealing and returns leaves in
    [self._equipements] the list it built on entry, still holding the
    states the devices had then; the best solution it returns is another
    object, allocated after that list and its dictionaries. *)
Theorem X18_working_list_kept (ss ss' : Store.algo) (g g' : Random)
    (h h' : list Store.object) (devices : nat) (d : nat) (ds : list nat)
    (devs : list ManagedDevice) (pc sp sc bc stp : R) (a : nat) (o p : R) :
  h !! devices = Some (Store.PyList (d :: ds)) ->
  Forall2 (fun d dev => h !! d = Some (Store.Device dev)) (d :: ds) devs ->
  Store.recuit_simule ss g devices (Some pc) (Some sp) (Some sc) (Some bc)
    (Some stp) h = Store.Returned ((a, o, p), ss', g') h' ->
  _equipements ss' = Some (length h)
  /\ sol_at h' (length h) (equipement_of <$> devs)
  /\ (length h + 1 + length devs <= a)%nat.
Proof.
  intros Hl Hd. unfold Store.recuit_simule, Store.read_list. rewrite Hl. simpl.
  rewrite (preparer_store ss g h (d :: ds) devs pc sp sc bc stp Hd).
  set (eqts := equipement_of <$> devs).
  set (h1 := with_copy h eqts). set (h2 := with_copy h1 eqts).
  assert (Hlen : length h1 = (length h + 1 + length devs)%nat).
  { unfold h1. rewrite with_copy_length. unfold eqts. rewrite length_fmap. lia. }
  destruct (Store.calculer_objectif _ h2 (length h1)) as [o0 | e]; simpl;
    [| discriminate].
  match goal with
  | |- context [Store.boucle ?s ?n ?f h2] =>
      destruct (boucle_frame s n f h2) as [Hp Hfresh];
      destruct (Store.boucle s n f h2) as [ff h3 | e h3]
  end; simpl in *; [| discriminate].
  destruct (Store.consommation_equipements h3 (meilleure_solution ff));
    simpl; [| discriminate].
  intros [= <- _ _ <- _ <-].
  split; [reflexivity |]. split.
  - eapply sol_at_prefix; [apply (with_copy_sol_at h eqts) |].
    etransitivity; [apply (with_copy_prefix h1 eqts) | exact Hp].
  - rewrite <- Hlen.
    apply (Hfresh ff h3 eq_refl (length h1)); simpl; try lia.
    unfold h2. rewrite with_copy_length. lia.
Qed.

Lemma X18_working_list_kept_witness :
  exists a o p ss' g' h',
    Store.recuit_simule sample_solver sample_random 0
      (Some (-1200)) (Some 1200) (Some 10) (Some 15) (Some 13) sample_store
    = Store.Returned ((a, o, p), ss', g') h'
    /\ _equipements ss' = Some 6%nat
    /\ sol_at h' 6 (equipement_of <$> [device_A; device_B])
    /\ (9 <= a)%nat.
Proof.
  destruct sample_store_call_returns as ([[a o] p] & ss' & g' & h' & H).
  exists a, o, p, ss', g', h'. split; [exact H |].
  apply (X18_working_list_kept sample_solver ss' sample_random g' sample_store
           h' 0 1%nat [2%nat] [device_A; device_B] (-1200) 1200 10 15 13
           a o p); [reflexivity | repeat constructor | exact H].
Defined.

(** ** Random draws *)





(** ** Where the best solution comes from *)

Lemma iteration_best_origin (self : Values.algo) (f f' : Values.frame)
    (initial : Values.solution) (oi : R) :
  best_sound self f -> Values.iteration self f = Ok f' ->
  (meilleure_solution f = initial /\ meilleure_objectif f = oi)
  \/ meilleure_objectif f < oi ->
  (meilleure_solution f' = initial /\ meilleure_objectif f' = oi)
  \/ meilleure_objectif f' < oi.
Proof.
  intros (Hb & _) H Hinv.
  apply iteration_cases in H
    as (oa & v & g1 & ov & _ & _ & _ & _ & _ & _ & _ & Hcase).
  destruct Hcase as [(_ & _ & _ & ob & Hob & Hbest)
                    | (_ & _ & _ & Hbs & Hbo & _)].
  - assert (ob = meilleure_objectif f) as -> by congruence.
    destruct Hbest as [(Hlt & _ & Hbo) | (_ & Hbs & Hbo)].
    + right. rewrite Hbo. destruct Hinv as [[_ <-] | Hlt']; lra.
    + rewrite Hbs, Hbo. exact Hinv.
  - rewrite Hbs, Hbo. exact Hinv.
Qed.

Lemma iterer_best_origin (self : Values.algo) (k : nat)
    (initial : Values.solution) (oi : R) :
  forall f fk : Values.frame,
    best_sound self f -> iterer self k f = Ok fk ->
    (meilleure_solution f = initial /\ meilleure_objectif f = oi)
    \/ meilleure_objectif f < oi ->
    (meilleure_solution fk = initial /\ meilleure_objectif fk = oi)
    \/ meilleure_objectif fk < oi.
Proof.
  induction k as [| k IH]; intros f fk Hs H Hinv.
  - injection H as <-. exact Hinv.
  - simpl in H. apply bind_Ok in H as (f1 & H1 & H).
    destruct (iteration_best_sound self f f1 Hs H1) as (Hs1 & _).
    apply (IH f1 fk Hs1 H).
    exact (iteration_best_origin self f f1 initial oi Hs H1 Hinv).
Qed.

(** X20.  The solver only moves away from the present states for a strict
    gain: a call that reaches the annealing and returns gives either the
    states the devices had on entry, with their score, or a solution that
    scores strictly below them. *)
Theorem X20_best_is_initial_or_better (self self' : Values.algo)
    (g g' : Random) (d : ManagedDevice) (ds : list ManagedDevice)
    (pc sp sc bc stp : R) (best : Values.solution)
    (best_objective power : R) :
  Values.recuit_simule self g (d :: ds) (Some pc) (Some sp) (Some sc)
    (Some bc) (Some stp) = Ok ((best, best_objective, power), self', g') ->
  exists oi,
    Values.calculer_objectif self' (equipement_of <$> (d :: ds)) = Ok oi
    /\ ((best = equipement_of <$> (d :: ds) /\ best_objective = oi)
        \/ best_objective < oi).
Proof.
  intros H. apply recuit_simule_Ok in H as (f0 & ff & Hp & Hb & [= -> -> ->] & _).
  pose proof (preparer_Ok _ _ _ _ _ _ _ _ _ _ Hp)
    as (_ & Hs0 & _ & Hbest & _).
  apply boucle_iterer in Hb as (K & _ & Hit & _).
  exists (meilleure_objectif f0).
  split; [rewrite <- Hbest; exact (proj1 Hs0) |].
  apply (iterer_best_origin self' K _ _ f0 ff Hs0 Hit).
  left. split; [exact Hbest | reflexivity].
Qed.

Lemma X20_best_is_initial_or_better_witness :
  exists best best_objective power self' g' oi,
    Values.recuit_simule sample_solver sample_random [device_A; device_B]
      (Some (-1200)) (Some 1200) (Some 10) (Some 15) (Some 13)
    = Ok ((best, best_objective, power), self', g')
    /\ Values.calculer_objectif self' (equipement_of <$> [device_A; device_B])
       = Ok oi
    /\ best_objective <= oi.
Proof.
  destruct sample_call_returns as [[[[[best o] p] self'] g'] H].
  destruct (X20_best_is_initial_or_better _ _ _ _ _ _ _ _ _ _ _ _ _ _ H)
    as (oi & Hoi & Hcase).
  exists best, o, p, self', g', oi. split; [exact H |]. split; [exact Hoi |].
  destruct Hcase as [[_ ->] | Hlt]; lra.
Defined.
